(** * setsolver: the combinatorial matching engine of [setsolver.py]

    A shallow embedding of the classifier [is_feature_a_set], the group
    matcher [is_set], the classes [Card], [CardSet] and [CardDeck], and the
    combination generator, followed by the properties of each.

    Python dictionaries are finite maps ([gmap]), Python [set]s are finite
    sets ([gset]); feature names and feature values are strings.  A call
    that may raise is a computation in [Py]. *)

From Stdlib Require Import Ascii String Factorial ArithRing.
From stdpp Require Import base option list sorting strings pretty gmap fin_maps fin_sets.

(** ** Results of Python calls *)

(** The exceptions the modelled code can raise. *)
Inductive PyExn : Type :=
  | TypeError       (* len(None), range(len(None)) *)
  | KeyError        (* d[k] with k not a key of d *)
  | AttributeError  (* None.append(...) *)
  | IndexError.     (* l[i] with i out of range *)

(** A call either returns a value or raises. *)
Inductive Py (A : Type) : Type :=
  | Return (a : A)
  | Raise (e : PyExn).
Arguments Return {A} a.
Arguments Raise {A} e.

Definition py_bind {A B} (m : Py A) (k : A → Py B) : Py B :=
  match m with
  | Return a => k a
  | Raise e => Raise e
  end.

Notation "x ←' m ; k" := (py_bind m (fun x => k))
  (at level 20, m at level 100, k at level 200, only parsing).

(** [d[k]] on a dictionary. *)
Definition getitem {V} (d : gmap string V) (k : string) : Py V :=
  match d !! k with
  | Some v => Return v
  | None => Raise KeyError
  end.

(** [l[i]] on a list, for a non-negative index. *)
Definition list_getitem {A} (l : list A) (i : nat) : Py A :=
  match l !! i with
  | Some x => Return x
  | None => Raise IndexError
  end.

(** A list comprehension [[f(x) for x in l]] whose body may raise. *)
Fixpoint comprehension {A B} (f : A → Py B) (l : list A) : Py (list B) :=
  match l with
  | [] => Return []
  | x :: l' => y ←' f x; ys ←' comprehension f l'; Return (y :: ys)
  end.

(** ** Match types *)

(** The constants [SAME = "Same"] and [DIFFERENT = "Different"]. *)
Inductive set_type : Type := SAME | DIFFERENT.

Global Instance set_type_eq_dec : EqDecision set_type.
Proof. solve_decision. Defined.

(** [set(values)]. *)
Definition py_set (values : list string) : gset string := list_to_set values.

(** [is_feature_a_set] on the values [feat_values]: [Some SAME],
    [Some DIFFERENT], or [None] for the Python value [False]. *)
Definition is_feature_a_set (feat_values : list string) : option set_type :=
  let collapse := py_set feat_values in
  if decide (size collapse = 1) then Some SAME
  else if decide (size collapse = length feat_values) then Some DIFFERENT
  else None.

(** ** Cards *)

Module Card.

(** [Card(features)]: the dictionary of feature names to values. *)
Record t : Type := Card { features : gmap string string }.

(** [self.features.keys()]. *)
Definition get_feature_names (self : t) : list string :=
  (map_to_list (features self)).*1.

(** The second argument of [compatible]: a card, or an iterable of
    feature names. *)
Inductive card_or_features : Type :=
  | a_card (c : t)
  | names (l : list string).

(** [s.symmetric_difference(t)]. *)
Definition symmetric_difference (s u : gset string) : gset string :=
  (s ∖ u) ∪ (u ∖ s).

Definition compatible (firstCard : t)
    (secondCardOrFeatures : card_or_features) : bool :=
  let secondCardOrFeatures :=
    match secondCardOrFeatures with
    | a_card c => get_feature_names c      (* isinstance(_, Card) *)
    | names l => l
    end in
  bool_decide
    (size (symmetric_difference (py_set (get_feature_names firstCard))
                                (py_set secondCardOrFeatures)) = 0).

(** The loop of [__eq__] over the feature names of the first card. *)
Fixpoint eq_loop (feats : list string) (firstCard SecondCard : t)
    : Py bool :=
  match feats with
  | [] => Return true
  | feat :: feats' =>
      v1 ←' getitem (features firstCard) feat;
      v2 ←' getitem (features SecondCard) feat;
      if decide (v1 ≠ v2) then Return false
      else eq_loop feats' firstCard SecondCard
  end.

Definition __eq__ (firstCard SecondCard : t) : Py bool :=
  if negb (compatible firstCard (a_card SecondCard)) then Return false
  else eq_loop (get_feature_names firstCard) firstCard SecondCard.

End Card.

(** ** The group matcher *)

(** [[card.features[feat] for card in cards]]: the column of values of one
    feature across a group. *)
Definition column (feat : string) (cards : list Card.t) : Py (list string) :=
  comprehension (λ card, getitem (Card.features card) feat) cards.

(** The loop of [is_set] over the feature names of the first card;
    [set_types] is the dictionary built so far. *)
Fixpoint is_set_loop (feats : list string) (cards : list Card.t)
    (set_types : gmap string set_type) : Py (option (gmap string set_type)) :=
  match feats with
  | [] => Return (Some set_types)
  | feat :: feats' =>
      values ←' column feat cards;
      match is_feature_a_set values with
      | None => Return None
      | Some set_type => is_set_loop feats' cards (<[feat := set_type]> set_types)
      end
  end.

(** [is_set] on the group [cards]: the dictionary of match types, or
    [None] for the Python value [False]. *)
Definition is_set (cards : list Card.t) : Py (option (gmap string set_type)) :=
  match cards with
  | [] => Return None
  | card0 :: _ => is_set_loop (Card.get_feature_names card0) cards ∅
  end.

(** Truth value of what [is_set] returns: [False] and the empty dictionary
    are false. *)
Definition truthy (set_match : option (gmap string set_type)) : bool :=
  match set_match with
  | None => false
  | Some set_types => negb (bool_decide (set_types = ∅))
  end.

(** ** Card sets *)

Module CardSet.

Record t : Type := CardSet {
  card_positions : option (list nat);
  cards : list Card.t;
  set_types : option (gmap string set_type)
}.

(** [CardSet(cards, positions=None)]. *)
Definition __init__ (cards : list Card.t) (positions : option (list nat)) : t :=
  {| card_positions := positions; cards := cards; set_types := None |}.

(** [check_set]. *)
Definition check_set (self : t) : Py (option (gmap string set_type)) :=
  is_set (cards self).

(** [str(position)]: the decimal digits of a position. *)
Definition str (position : nat) : string := pretty position.

(** [positions_string]: the positions joined by dashes; a record without
    positions, or with an empty list of them, has none to show. *)
Definition positions_string (self : t) : string :=
  match card_positions self with
  | Some ((_ :: _) as positions) => String.concat "-" (str <$> positions)
  | Some [] | None => "No positions available"
  end.

End CardSet.

(** ** Text of the card file *)

(** Whitespace removed by [str.strip()], on ASCII. *)
Definition is_space (a : ascii) : bool :=
  let n := nat_of_ascii a in
  ((9 <=? n)%nat && (n <=? 13)%nat) || ((28 <=? n)%nat && (n <=? 32)%nat).

Fixpoint lstrip (s : string) : string :=
  match s with
  | String a s' => if is_space a then lstrip s' else s
  | EmptyString => EmptyString
  end.

Definition strip (s : string) : string :=
  String.rev (lstrip (String.rev (lstrip s))).

(** [s.split(sep)] for a one-character separator. *)
Fixpoint split (sep : ascii) (s : string) : list string :=
  match s with
  | EmptyString => [EmptyString]
  | String a s' =>
      if Ascii.eqb a sep then EmptyString :: split sep s'
      else match split sep s' with
           | field :: fields => String a field :: fields
           | [] => [String a EmptyString]
           end
  end.

Definition tab : ascii := ascii_of_nat 9.

(** [line[0] == "#"]. *)
Definition starts_with_hash (line : string) : bool :=
  match line with
  | String a _ => Ascii.eqb a "#"%char
  | EmptyString => false
  end.

(** ** Decks *)

Module CardDeck.

(** The attributes of a deck.  [features] and [cards] start as [None];
    [comments] exists only once a file was loaded. *)
Record t : Type := CardDeck {
  features : option (list string);
  cards : option (list Card.t);
  sets : list CardSet.t;
  feature_values : gmap string (gset string);
  comments : option (list string)
}.

(** [l.append(x)], where [l] may be [None]. *)
Definition append {A} (l : option (list A)) (x : A) : Py (list A) :=
  match l with
  | Some l => Return (l ++ [x])
  | None => Raise AttributeError
  end.

(** [len(l)], where [l] may be [None]. *)
Definition len {A} (l : option (list A)) : Py nat :=
  match l with
  | Some l => Return (length l)
  | None => Raise TypeError
  end.

(** [dict(zip(names, fields))]: later pairs overwrite earlier ones. *)
Definition dict_zip (names fields : list string) : gmap string string :=
  foldl (λ d kv, <[kv.1 := kv.2]> d) ∅ (zip names fields).

(** The comprehension that adds the values of a card to
    [feature_values]. *)
Fixpoint add_values (items : list (string * string))
    (feature_values : gmap string (gset string))
    : Py (gmap string (gset string)) :=
  match items with
  | [] => Return feature_values
  | (feat, value) :: items' =>
      seen ←' getitem feature_values feat;
      if decide (value ∉ seen)
      then add_values items' (<[feat := seen ∪ {[value]}]> feature_values)
      else add_values items' feature_values
  end.

(** The body of the loop of [load_file], for one line of the file. *)
Definition load_line (self : t) (line : string) : Py t :=
  let line := strip line in
  if Nat.eqb (String.length line) 0 || starts_with_hash line then
    comments' ←' append (comments self) line;
    Return {| features := features self; cards := cards self;
              sets := sets self; feature_values := feature_values self;
              comments := Some comments' |}
  else
    let fields := split tab line in
    match features self with
    | None | Some [] =>
        Return {| features := Some fields; cards := cards self;
                  sets := sets self;
                  feature_values :=
                    foldl (λ fv feat, <[feat := ∅]> fv)
                          (feature_values self) fields;
                  comments := comments self |}
    | Some names =>
        if decide (length fields ≠ length names) then Return self
        else
          let card_features := dict_zip names fields in
          let c := Card.Card card_features in
          cards' ←' append (cards self) c;
          feature_values' ←'
            add_values (map_to_list card_features) (feature_values self);
          Return {| features := features self; cards := Some cards';
                    sets := sets self; feature_values := feature_values';
                    comments := comments self |}
    end.

Fixpoint load_lines (self : t) (lines : list string) : Py t :=
  match lines with
  | [] => Return self
  | line :: lines' => self' ←' load_line self line; load_lines self' lines'
  end.

(** [load_file(filename)], on the lines of the named file. *)
Definition load_file (self : t) (lines : list string) : Py t :=
  load_lines {| features := None; cards := Some [];
                sets := sets self; feature_values := feature_values self;
                comments := Some [] |} lines.

(** [CardDeck(load_file=None)]; the argument is the lines of the file to
    load, if one is named. *)
Definition __init__ (file : option (list string)) : Py t :=
  let self := {| features := None; cards := None; sets := [];
                 feature_values := ∅; comments := None |} in
  match file with
  | Some lines => load_file self lines
  | None => Return self
  end.

(** [add_card(card)]: the returned boolean and the deck afterwards. *)
Definition add_card (self : t) (card : Card.t) : Py (bool * t) :=
  match features self with
  | None => Raise TypeError                      (* len(None) *)
  | Some names =>
      if negb (bool_decide (length names ≠ 0)) then
        cards' ←' append (cards self) card;
        Return (true, {| features := Some (Card.get_feature_names card);
                         cards := Some cards'; sets := sets self;
                         feature_values := feature_values self;
                         comments := comments self |})
      else if negb (Card.compatible card (Card.names names)) then
        Return (false, self)
      else
        cards' ←' append (cards self) card;
        Return (true, {| features := features self; cards := Some cards';
                         sets := sets self;
                         feature_values := feature_values self;
                         comments := comments self |})
  end.

(** [generate_card_combos(items, nitems)]: the selections in the order
    the generator yields them.  The method does not use [self]; the size
    [nitems] is a natural number, as are all the sizes the properties
    below speak of. *)
Fixpoint generate_card_combos {A} (items : list A) (nitems : nat)
    : list (list A) :=
  match nitems with
  | 0 => [[]]
  | S nitems' =>
      i ← seq 0 (length items);
      item ← generate_card_combos (drop (i + 1) items) nitems';
      match items !! i with
      | Some x => [x :: item]
      | None => []
      end
  end.

(** [range(n)]. *)
Definition range (n : nat) : list nat := seq 0 n.

Definition card_position_combos (self : t) (setsize : nat)
    : Py (list (list nat)) :=
  n ←' len (cards self);
  Return (generate_card_combos (range n) setsize).

Definition card_combinations (self : t) (setsize : nat)
    : Py (list (list Card.t)) :=
  match cards self with
  | Some cards => Return (generate_card_combos cards setsize)
  | None => Raise TypeError
  end.

(** The loop of [solve] over the position combinations; [sets] is the
    list built so far. *)
Fixpoint solve_loop (cards : option (list Card.t)) (combos : list (list nat))
    (sets : list CardSet.t) : Py (list CardSet.t) :=
  match combos with
  | [] => Return sets
  | combo :: combos' =>
      let pick position :=
        match cards with
        | Some cards => list_getitem cards position
        | None => Raise TypeError
        end in
      group ←' comprehension pick combo;
      set_match ←' is_set group;
      if truthy set_match then
        group' ←' comprehension pick combo;
        solve_loop cards combos'
                   (sets ++ [CardSet.__init__ group' (Some combo)])
      else solve_loop cards combos' sets
  end.

(** [self.sets = sets']. *)
Definition set_sets (self : t) (sets' : list CardSet.t) : t :=
  {| features := features self; cards := cards self; sets := sets';
     feature_values := feature_values self; comments := comments self |}.

(** [solve(setsize)]: the returned list and the deck afterwards.  The
    comparison of [setsize] with [len(self.features)] only logs a
    warning. *)
Definition solve (self : t) (setsize : nat) : Py (list CardSet.t * t) :=
  let self := set_sets self [] in
  _ ←' len (features self);
  combos ←' card_position_combos self setsize;
  sets' ←' solve_loop (cards self) combos (sets self);
  Return (sets', set_sets self sets').

End CardDeck.

(** * Vocabulary of the properties *)

(** The set of feature names a second argument of [compatible] stands
    for. *)
Definition name_set (other : Card.card_or_features) : gset string :=
  match other with
  | Card.a_card c => dom (Card.features c)
  | Card.names l => list_to_set l
  end.

(** A group is pairwise compatible when [compatible] holds between any two
    of its cards. *)
Definition pairwise_compatible (cards : list Card.t) : Prop :=
  ∀ c1 c2, c1 ∈ cards → c2 ∈ cards → Card.compatible c1 (Card.a_card c2) = true.

(** The binomial coefficient C(m, n), by Pascal's rule. *)
Fixpoint choose (m n : nat) : nat :=
  match n, m with
  | 0, _ => 1
  | S _, 0 => 0
  | S n', S m' => choose m' n' + choose m' n
  end.

(** Strict lexicographic order on sequences of positions. *)
Inductive lex_lt : list nat → list nat → Prop :=
  | lex_lt_nil p l : lex_lt [] (p :: l)
  | lex_lt_head p q l k : p < q → lex_lt (p :: l) (q :: k)
  | lex_lt_tail p l k : lex_lt l k → lex_lt (p :: l) (p :: k).

(** A selection of positions below [m], in strictly ascending order. *)
Definition ascending_below (m : nat) (combo : list nat) : Prop :=
  StronglySorted lt combo ∧ Forall (λ p, p < m) combo.

(** A deck has no schema only while it has no cards. *)
Definition schema_before_cards (self : CardDeck.t) : Prop :=
  CardDeck.features self = None →
  CardDeck.cards self = None ∨ CardDeck.cards self = Some [].

(** The per-feature sets of the deck hold every value of every card of the
    deck. *)
Definition values_recorded (self : CardDeck.t) : Prop :=
  ∀ cards card feat value,
    CardDeck.cards self = Some cards → card ∈ cards →
    Card.features card !! feat = Some value →
    ∃ seen, CardDeck.feature_values self !! feat = Some seen ∧ value ∈ seen.

(** A deck being loaded: it has a list of cards and of comments; while it
    has no schema it has no card; and once it has one, the schema is not
    empty, every name of it has a set of seen values, and every card has
    exactly the names of the schema. *)
Record loading (self : CardDeck.t) : Prop := {
  loading_cards : is_Some (CardDeck.cards self);
  loading_comments : is_Some (CardDeck.comments self);
  loading_no_schema :
    CardDeck.features self = None → CardDeck.cards self = Some [];
  loading_schema names :
    CardDeck.features self = Some names →
    names ≠ [] ∧
    (∀ feat, feat ∈ names → feat ∈ dom (CardDeck.feature_values self)) ∧
    (∀ cards card, CardDeck.cards self = Some cards → card ∈ cards →
       dom (Card.features card) = list_to_set names)
}.

(** The cards of a deck at the positions of a selection. *)
Definition cards_at (cards : list Card.t) (combo : list nat) : list Card.t :=
  omap (λ position, cards !! position) combo.

(** The group matcher accepts a group: it returns a dictionary that is
    true as a condition. *)
Definition is_match (group : list Card.t) : bool :=
  match is_set group with
  | Return set_match => truthy set_match
  | Raise _ => false
  end.

(** The records [CardSet(cards, combo)] of the selections that the group
    matcher accepts, in the order of the selections. *)
Definition matches (cards : list Card.t) (combos : list (list nat))
    : list CardSet.t :=
  omap (λ combo,
          if is_match (cards_at cards combo)
          then Some (CardSet.__init__ (cards_at cards combo) (Some combo))
          else None) combos.

(** The decks that the constructor and the methods [load_file],
    [add_card] and [solve] produce. *)
Inductive reachable : CardDeck.t → Prop :=
  | reachable_init file self :
      CardDeck.__init__ file = Return self → reachable self
  | reachable_load_file self lines self' :
      reachable self → CardDeck.load_file self lines = Return self' →
      reachable self'
  | reachable_add_card self card added self' :
      reachable self → CardDeck.add_card self card = Return (added, self') →
      reachable self'
  | reachable_solve self setsize found self' :
      reachable self → CardDeck.solve self setsize = Return (found, self') →
      reachable self'.

(** The per-feature sets of the names of the schema hold nothing but
    values of cards of the deck. *)
Definition values_exact (self : CardDeck.t) : Prop :=
  ∀ names feat seen value,
    CardDeck.features self = Some names → feat ∈ names →
    CardDeck.feature_values self !! feat = Some seen → value ∈ seen →
    ∃ cards card, CardDeck.cards self = Some cards ∧ card ∈ cards ∧
                  Card.features card !! feat = Some value.

(** The character [a] occurs in the string. *)
Fixpoint has_char (a : ascii) (s : string) : bool :=
  match s with
  | EmptyString => false
  | String b s' => Ascii.eqb b a || has_char a s'
  end.






(** ** Example data *)

(** A card of the game, from its four feature values. *)
Definition game_card (color number shape fill : string) : Card.t :=
  Card.Card (list_to_map [("Color", color); ("Number", number);
                          ("Shape", shape); ("Fill", fill)]%string).

Definition purple1 : Card.t := game_card "purple" "1" "square" "solid".
Definition purple2 : Card.t := game_card "purple" "2" "square" "solid".
Definition green2 : Card.t := game_card "green" "2" "square" "solid".
Definition red3 : Card.t := game_card "red" "3" "square" "solid".
Definition blue4 : Card.t := game_card "blue" "4" "square" "solid".

(** A line of a card file: the fields separated by tabs. *)
Definition row (fields : list string) : string :=
  String.concat (String tab EmptyString) fields.

(** A card file: a comment, the feature names, and the three cards
    [purple1], [green2] and [red3]. *)
Definition game_file : list string :=
  [ "# 0-1-2";
    row ["Color"; "Number"; "Shape"; "Fill"];
    row ["purple"; "1"; "square"; "solid"];
    row ["green"; "2"; "square"; "solid"];
    row ["red"; "3"; "square"; "solid"] ]%string.

(** The deck that loading [game_file] gives, written out. *)
Definition game_deck : CardDeck.t :=
  {| CardDeck.features := Some ["Color"; "Number"; "Shape"; "Fill"]%string;
     CardDeck.cards := Some [purple1; green2; red3];
     CardDeck.sets := [];
     CardDeck.feature_values :=
       {[ "Color" := {[ "purple"; "green"; "red" ]};
          "Number" := {[ "1"; "2"; "3" ]};
          "Shape" := {[ "square" ]};
          "Fill" := {[ "solid" ]} ]}%string;
     CardDeck.comments := Some ["# 0-1-2"%string] |}.

(** The same deck once [solve(3)] has stored its one match. *)
Definition solved_deck : CardDeck.t :=
  CardDeck.set_sets game_deck
    [CardSet.__init__ [purple1; green2; red3] (Some [0; 1; 2])].

(** * Properties *)

(** ** The feature classifier *)

Section classifier.
Implicit Types (values : list string) (v : string).

Lemma py_set_nil : py_set [] = ∅.
Proof. reflexivity. Qed.

Lemma py_set_cons v values : py_set (v :: values) = {[v]} ∪ py_set values.
Proof. reflexivity. Qed.

Lemma elem_of_py_set v values : v ∈ py_set values ↔ v ∈ values.
Proof. apply elem_of_list_to_set. Qed.

(** Collapsing into a set never grows the count. *)
Lemma size_py_set_le values : size (py_set values) ≤ length values.
Proof.
  induction values as [|v values IH]; cbn [length].
  - by rewrite py_set_nil, size_empty.
  - rewrite py_set_cons, size_union_alt, size_singleton.
    assert (size (py_set values ∖ {[v]}) ≤ size (py_set values)).
    { apply subseteq_size. set_solver. }
    lia.
Qed.

(** The count is kept exactly when the values are pairwise distinct. *)
Lemma size_py_set_NoDup values :
  size (py_set values) = length values ↔ NoDup values.
Proof.
  split; [|apply size_list_to_set].
  induction values as [|v values IH]; intros Hsz; [constructor|].
  rewrite py_set_cons in Hsz. cbn [length] in Hsz.
  destruct (decide (v ∈ values)) as [Hin|Hnin].
  - assert ({[v]} ∪ py_set values = py_set values) as Heq.
    { apply elem_of_py_set in Hin. set_solver. }
    rewrite Heq in Hsz. pose proof (size_py_set_le values). lia.
  - rewrite size_union, size_singleton in Hsz.
    + constructor; [done|]. apply IH. lia.
    + rewrite <- elem_of_py_set in Hnin. set_solver.
Qed.

Lemma is_feature_a_set_same values :
  is_feature_a_set values = Some SAME ↔ size (py_set values) = 1.
Proof. unfold is_feature_a_set. repeat case_decide; naive_solver. Qed.

Lemma is_feature_a_set_different values :
  is_feature_a_set values = Some DIFFERENT ↔
  size (py_set values) ≠ 1 ∧ size (py_set values) = length values.
Proof. unfold is_feature_a_set. repeat case_decide; naive_solver. Qed.

Lemma is_feature_a_set_false values :
  is_feature_a_set values = None ↔
  size (py_set values) ≠ 1 ∧ size (py_set values) ≠ length values.
Proof. unfold is_feature_a_set. repeat case_decide; naive_solver. Qed.

End classifier.

(** C4. For a sequence of [k] feature values with [d] distinct values, the
    classifier returns Same when [d = 1]; Different when [d = k] (the values
    are pairwise distinct) and the sequence is not the single-value case;
    and the no-match sentinel [None] otherwise.  A sequence of one value is
    Same.  The classifier is a total function, so no case raises. *)
Theorem is_feature_a_set_classifies (feat_values : list string) :
  feat_values ≠ [] →
  (size (py_set feat_values) = 1 → is_feature_a_set feat_values = Some SAME) ∧
  (size (py_set feat_values) = length feat_values → length feat_values ≠ 1 →
     is_feature_a_set feat_values = Some DIFFERENT) ∧
  (NoDup feat_values → length feat_values ≠ 1 →
     is_feature_a_set feat_values = Some DIFFERENT) ∧
  (size (py_set feat_values) ≠ 1 →
   size (py_set feat_values) ≠ length feat_values →
     is_feature_a_set feat_values = None) ∧
  (length feat_values = 1 → is_feature_a_set feat_values = Some SAME).
Proof.
  intros _. split_and!.
  - by rewrite is_feature_a_set_same.
  - intros Hd Hk. apply is_feature_a_set_different. split; congruence.
  - intros Hd%size_py_set_NoDup Hk.
    apply is_feature_a_set_different. split; congruence.
  - intros ??. by apply is_feature_a_set_false.
  - intros Hk. apply is_feature_a_set_same.
    destruct feat_values as [|v [|??]]; try discriminate Hk.
    by rewrite py_set_cons, py_set_nil, union_empty_r_L, size_singleton.
Qed.

Lemma is_feature_a_set_classifies_witness :
  ["blue"; "red"; "green"]%string ≠ [] ∧
  is_feature_a_set ["blue"; "red"; "green"]%string = Some DIFFERENT.
Proof.
  split; [done|].
  destruct (is_feature_a_set_classifies ["blue"; "red"; "green"]%string)
    as (_ & _ & Hdifferent & _); [done|].
  apply Hdifferent; [compute_done|simpl; lia].
Defined.

(** C9. The classifier depends only on the multiset of its input values:
    it returns the same result on a sequence and on any permutation of
    it. *)
Theorem is_feature_a_set_permutation (feat_values feat_values' : list string) :
  feat_values ≡ₚ feat_values' →
  is_feature_a_set feat_values = is_feature_a_set feat_values'.
Proof.
  intros Hperm. unfold is_feature_a_set, py_set.
  by rewrite (list_to_set_perm_L _ _ Hperm), (Permutation_length Hperm).
Qed.

Lemma is_feature_a_set_permutation_witness :
  is_feature_a_set ["blue"; "green"; "blue"]%string =
  is_feature_a_set ["green"; "blue"; "blue"]%string.
Proof.
  apply is_feature_a_set_permutation.
  apply perm_swap.
Defined.

(** ** Cards: compatibility and equality *)

Section card.
Implicit Types (c : Card.t) (feat : string) (s u : gset string).

Lemma elem_of_get_feature_names c feat :
  feat ∈ Card.get_feature_names c ↔ is_Some (Card.features c !! feat).
Proof.
  unfold Card.get_feature_names. rewrite list_elem_of_fmap. split.
  - intros [[k v] [-> Hkv%elem_of_map_to_list]]. by exists v.
  - intros [v Hv]. exists (feat, v). by rewrite elem_of_map_to_list.
Qed.

Lemma py_set_get_feature_names c :
  py_set (Card.get_feature_names c) = dom (Card.features c).
Proof.
  apply set_eq. intros feat.
  by rewrite elem_of_py_set, elem_of_get_feature_names, elem_of_dom.
Qed.

Lemma elem_of_symmetric_difference feat s u :
  feat ∈ Card.symmetric_difference s u ↔
  (feat ∈ s ∧ feat ∉ u) ∨ (feat ∈ u ∧ feat ∉ s).
Proof.
  unfold Card.symmetric_difference.
  by rewrite elem_of_union, !elem_of_difference.
Qed.

Lemma symmetric_difference_empty s u :
  Card.symmetric_difference s u = ∅ ↔ s = u.
Proof.
  split.
  - intros Hempty. apply set_eq. intros feat.
    assert (feat ∉ Card.symmetric_difference s u) as Hnot.
    { rewrite Hempty. apply not_elem_of_empty. }
    rewrite elem_of_symmetric_difference in Hnot.
    destruct (decide (feat ∈ s)), (decide (feat ∈ u)); tauto.
  - intros ->. apply set_eq. intros feat.
    rewrite elem_of_symmetric_difference, elem_of_empty. tauto.
Qed.

Lemma compatible_unfold c other :
  Card.compatible c other =
  bool_decide (size (Card.symmetric_difference (dom (Card.features c))
                                               (name_set other)) = 0).
Proof.
  unfold Card.compatible.
  destruct other; simpl; by rewrite !py_set_get_feature_names.
Qed.

Lemma compatible_true c other :
  Card.compatible c other = true ↔ dom (Card.features c) = name_set other.
Proof.
  rewrite compatible_unfold, bool_decide_eq_true, size_empty_iff.
  rewrite leibniz_equiv_iff. apply symmetric_difference_empty.
Qed.

Lemma compatible_false c other :
  Card.compatible c other = false ↔ dom (Card.features c) ≠ name_set other.
Proof. rewrite <- compatible_true. by destruct (Card.compatible c other). Qed.

(** The loop of [__eq__] on names that both cards have. *)
Lemma eq_loop_spec feats c1 c2 :
  (∀ feat, feat ∈ feats →
     is_Some (Card.features c1 !! feat) ∧ is_Some (Card.features c2 !! feat)) →
  ∃ b, Card.eq_loop feats c1 c2 = Return b ∧
       (b = true ↔
        ∀ feat, feat ∈ feats → Card.features c1 !! feat = Card.features c2 !! feat).
Proof.
  induction feats as [|feat feats IH]; intros Hkeys; simpl.
  - exists true. split; [done|]. split; [|done]. by intros _ ? ?%elem_of_nil.
  - destruct (Hkeys feat) as [[v1 Hv1] [v2 Hv2]]; [by left|].
    unfold getitem. rewrite Hv1, Hv2. simpl. case_decide as Hne.
    + exists false. split; [done|]. split; [done|]. intros Hall.
      specialize (Hall feat (list_elem_of_here _ _)). congruence.
    + destruct IH as (b & -> & Hb).
      { intros ??. apply Hkeys. by right. }
      exists b. split; [done|]. rewrite Hb. split.
      * intros Hall feat' [->|?]%elem_of_cons; [|by apply Hall].
        rewrite Hv1, Hv2. f_equal. by destruct (decide (v1 = v2)).
      * intros Hall ??. apply Hall. by right.
Qed.

Lemma __eq___compatible c1 c2 :
  Card.compatible c1 (Card.a_card c2) = true →
  ∃ b, Card.__eq__ c1 c2 = Return b ∧
       (b = true ↔ ∀ feat, Card.features c1 !! feat = Card.features c2 !! feat).
Proof.
  intros Hcompat. unfold Card.__eq__. rewrite Hcompat. simpl.
  apply compatible_true in Hcompat. simpl in Hcompat.
  destruct (eq_loop_spec (Card.get_feature_names c1) c1 c2) as (b & Hb & Hiff).
  { intros feat Hfeat%elem_of_get_feature_names. split; [done|].
    by rewrite <- elem_of_dom, <- Hcompat, elem_of_dom. }
  exists b. split; [done|]. rewrite Hiff. split; [|by auto].
  intros Hall feat.
  destruct (Card.features c1 !! feat) as [v|] eqn:Hv.
  - rewrite <- Hv. apply Hall, elem_of_get_feature_names. by rewrite Hv.
  - symmetry. apply not_elem_of_dom. rewrite <- Hcompat.
    by apply not_elem_of_dom.
Qed.

End card.

(** C8. [compatible] returns true exactly when the symmetric difference of
    the two feature-name sets is empty, that is when the two sets are the
    same; the second argument is a card or a bare collection of names.  A
    strict subset or superset of names is incompatible, and the answer does
    not depend on the feature values of either card. *)
Theorem compatible_iff_same_names (firstCard : Card.t)
    (other : Card.card_or_features) :
  (Card.compatible firstCard other = true ↔
   Card.symmetric_difference (dom (Card.features firstCard)) (name_set other) = ∅) ∧
  (Card.compatible firstCard other = true ↔
   dom (Card.features firstCard) = name_set other) ∧
  (dom (Card.features firstCard) ⊂ name_set other ∨
   name_set other ⊂ dom (Card.features firstCard) →
   Card.compatible firstCard other = false) ∧
  (∀ firstCard' other',
     dom (Card.features firstCard') = dom (Card.features firstCard) →
     name_set other' = name_set other →
     Card.compatible firstCard' other' = Card.compatible firstCard other).
Proof.
  split_and!.
  - by rewrite compatible_true, symmetric_difference_empty.
  - apply compatible_true.
  - intros Hstrict. apply compatible_false. set_solver.
  - intros firstCard' other' Hdom Hnames.
    by rewrite !compatible_unfold, Hdom, Hnames.
Qed.

(** C7. [__eq__] returns false as soon as the two cards are not
    compatible, whatever their values; for compatible cards it returns,
    without raising, true exactly when every feature name maps to the same
    value in both; so every card equals itself. *)
Theorem __eq___spec (firstCard SecondCard : Card.t) :
  (Card.compatible firstCard (Card.a_card SecondCard) = false →
   Card.__eq__ firstCard SecondCard = Return false) ∧
  (Card.compatible firstCard (Card.a_card SecondCard) = true →
   ∃ b, Card.__eq__ firstCard SecondCard = Return b ∧
        (b = true ↔
         ∀ feat, Card.features firstCard !! feat = Card.features SecondCard !! feat)) ∧
  Card.__eq__ firstCard firstCard = Return true.
Proof.
  split_and!.
  - intros Hcompat. unfold Card.__eq__. by rewrite Hcompat.
  - apply __eq___compatible.
  - destruct (__eq___compatible firstCard firstCard) as (b & -> & Hb).
    { by apply compatible_true. }
    f_equal. by apply Hb.
Qed.

(** A card is not equal to one with a superset of its features, although
    every shared name has the same value (the cards D and E of the tests). *)
Example __eq___superset :
  Card.__eq__
    (Card.Card (list_to_map [("Color", "teal"); ("Direction", "south");
                             ("Polarity", "positive")]%string))
    (Card.Card (list_to_map [("Color", "teal"); ("Direction", "south");
                             ("Polarity", "positive");
                             ("Temperature", "hot")]%string))
  = Return false.
Proof. vm_compute. reflexivity. Qed.

(** ** The group matcher *)

Section matcher.
Implicit Types (cards : list Card.t) (feat : string) (values : list string).
Implicit Types (set_types : gmap string set_type).

(** The column of a feature that every card of the group has. *)
Lemma column_Return feat cards :
  (∀ card, card ∈ cards → is_Some (Card.features card !! feat)) →
  ∃ values, column feat cards = Return values ∧
            Forall2 (λ card v, Card.features card !! feat = Some v) cards values.
Proof.
  unfold column. induction cards as [|card cards IH]; intros Hkeys; simpl.
  - by exists [].
  - destruct (Hkeys card) as [v Hv]; [by left|].
    destruct IH as (values & -> & Hvalues).
    { intros ??. apply Hkeys. by right. }
    unfold getitem. rewrite Hv. simpl. exists (v :: values). by split; [|constructor].
Qed.

(** In a pairwise compatible group every card has the names of the
    first. *)
Lemma compatible_group_keys card0 cards feat :
  (∀ c1 c2, c1 ∈ card0 :: cards → c2 ∈ card0 :: cards →
            Card.compatible c1 (Card.a_card c2) = true) →
  feat ∈ dom (Card.features card0) →
  ∀ card, card ∈ card0 :: cards → is_Some (Card.features card !! feat).
Proof.
  intros Hcompat Hfeat card Hcard. apply elem_of_dom.
  specialize (Hcompat card0 card (list_elem_of_here _ _) Hcard).
  apply compatible_true in Hcompat. simpl in Hcompat. by rewrite <- Hcompat.
Qed.

(** The loop either meets a column that does not classify and returns
    [False], or returns the dictionary extended with the classification of
    every name it went through. *)
Lemma is_set_loop_spec feats cards set_types :
  (∀ feat, feat ∈ feats → ∃ values, column feat cards = Return values) →
  (is_set_loop feats cards set_types = Return None ∧
   ∃ feat values, feat ∈ feats ∧ column feat cards = Return values ∧
                  is_feature_a_set values = None) ∨
  (∃ set_types',
     is_set_loop feats cards set_types = Return (Some set_types') ∧
     (∀ feat, feat ∈ feats →
        ∃ values t, column feat cards = Return values ∧
                    is_feature_a_set values = Some t ∧
                    set_types' !! feat = Some t) ∧
     (∀ feat, feat ∉ feats → set_types' !! feat = set_types !! feat)).
Proof.
  revert set_types.
  induction feats as [|feat feats IH]; intros set_types Hcols; simpl.
  - right. exists set_types. split_and!; [done| |done].
    by intros ? ?%elem_of_nil.
  - destruct (Hcols feat) as [values Hvalues]; [by left|].
    rewrite Hvalues. simpl.
    destruct (is_feature_a_set values) as [t|] eqn:Ht.
    + destruct (IH (<[feat := t]> set_types)) as
        [(-> & feat' & values' & ? & ? & ?)|(set_types' & -> & Hin & Hout)].
      { intros ??. apply Hcols. by right. }
      * left. split; [done|]. exists feat', values'. split_and!; [by right|done..].
      * right. exists set_types'. split_and!; [done| |].
        -- intros feat' [->|?]%elem_of_cons; [|by apply Hin].
           destruct (decide (feat ∈ feats)) as [?|Hnin]; [by apply Hin|].
           exists values, t. split_and!; [done..|].
           by rewrite (Hout _ Hnin), lookup_insert_eq.
        -- intros feat' Hnin%not_elem_of_cons. destruct Hnin as [Hne ?].
           rewrite Hout by done. by rewrite lookup_insert_ne.
    + left. split; [done|]. exists feat, values. split_and!; [by left|done..].
Qed.

End matcher.

Lemma pairwise_compatible_Forall (cards : list Card.t) :
  Forall (λ c1, Forall (λ c2, Card.compatible c1 (Card.a_card c2) = true) cards)
         cards →
  pairwise_compatible cards.
Proof.
  intros Hall c1 c2 Hc1 Hc2.
  rewrite Forall_forall in Hall. specialize (Hall c1 Hc1).
  rewrite Forall_forall in Hall. by apply Hall.
Qed.

(** What [is_set] does on a non-empty pairwise compatible group. *)
Lemma is_set_cons (card0 : Card.t) (cards : list Card.t) :
  pairwise_compatible (card0 :: cards) →
  (is_set (card0 :: cards) = Return None ∧
   ∃ feat values, feat ∈ dom (Card.features card0) ∧
                  column feat (card0 :: cards) = Return values ∧
                  is_feature_a_set values = None) ∨
  (∃ set_types,
     is_set (card0 :: cards) = Return (Some set_types) ∧
     dom set_types = dom (Card.features card0) ∧
     ∀ feat, feat ∈ dom (Card.features card0) →
       ∃ values t, column feat (card0 :: cards) = Return values ∧
                   is_feature_a_set values = Some t ∧
                   set_types !! feat = Some t).
Proof.
  intros Hcompat. unfold is_set.
  destruct (is_set_loop_spec (Card.get_feature_names card0) (card0 :: cards) ∅)
    as [(Hloop & feat & values & Hfeat & Hcol & Hnone)
       |(set_types & Hloop & Hin & Hout)].
  - intros feat Hfeat%elem_of_get_feature_names%elem_of_dom.
    destruct (column_Return feat (card0 :: cards)) as (values & ? & _); [|eauto].
    by apply compatible_group_keys.
  - left. split; [done|]. exists feat, values. split_and!; [|done..].
    by apply elem_of_dom, elem_of_get_feature_names.
  - right. exists set_types. split_and!; [done| |].
    + apply set_eq. intros feat. rewrite !elem_of_dom.
      rewrite <- elem_of_get_feature_names. split.
      * intros Hsome.
        destruct (decide (feat ∈ Card.get_feature_names card0)) as [|Hnin]; [done|].
        rewrite (Hout _ Hnin), lookup_empty in Hsome. by destruct Hsome.
      * intros (? & ? & _ & _ & ->)%Hin. done.
    + intros feat Hfeat. apply Hin.
      by apply elem_of_get_feature_names, elem_of_dom.
Qed.

(** C5. On a pairwise compatible group, the group matcher never raises;
    it returns the failure value [False] on the empty group and whenever
    the column of some feature of the schema does not classify; whenever it
    succeeds, and it does as soon as every column classifies, it returns
    the mapping whose keys are exactly the feature names of the schema,
    each mapped to the classification (Same or Different) of its
    column. *)
Theorem is_set_spec (cards : list Card.t) :
  pairwise_compatible cards →
  (cards = [] → is_set cards = Return None) ∧
  (∃ r, is_set cards = Return r) ∧
  (∀ card0 feat values,
     head cards = Some card0 → feat ∈ dom (Card.features card0) →
     column feat cards = Return values → is_feature_a_set values = None →
     is_set cards = Return None) ∧
  (∀ set_types,
     is_set cards = Return (Some set_types) →
     ∃ card0, head cards = Some card0 ∧
       dom set_types = dom (Card.features card0) ∧
       ∀ feat, feat ∈ dom (Card.features card0) →
         ∃ values t, column feat cards = Return values ∧
                     is_feature_a_set values = Some t ∧
                     set_types !! feat = Some t) ∧
  (∀ card0,
     head cards = Some card0 →
     (∀ feat values, feat ∈ dom (Card.features card0) →
        column feat cards = Return values → is_feature_a_set values ≠ None) →
     ∃ set_types, is_set cards = Return (Some set_types)).
Proof.
  intros Hcompat. destruct cards as [|card0 cards].
  { split_and!; try done. by exists None. }
  destruct (is_set_cons card0 cards Hcompat)
    as [(Hset & feat & values & Hfeat & Hcol & Hnone)
       |(set_types & Hset & Hdom & Hall)];
    rewrite Hset; split_and!; try done; try by eauto.
  - intros ? [=<-] Hcols. by destruct (Hcols feat values).
  - intros card0' feat values [=<-] Hfeat Hcol Hnone.
    destruct (Hall feat Hfeat) as (? & ? & ? & ? & _). congruence.
  - intros ? [=<-]. by exists card0.
Qed.

Lemma is_set_spec_witness :
  is_set [purple1; green2; red3] =
    Return (Some (list_to_map [("Color", DIFFERENT); ("Number", DIFFERENT);
                               ("Shape", SAME); ("Fill", SAME)]%string)) ∧
  ∃ r, is_set [purple1; green2; red3] = Return r.
Proof.
  split; [vm_compute; reflexivity|].
  apply (is_set_spec [purple1; green2; red3]).
  apply pairwise_compatible_Forall. repeat constructor.
Defined.

(** The group of the specification that is no match: its Color column is
    neither all the same nor all different. *)
Example is_set_no_match : is_set [purple1; purple2; red3] = Return None.
Proof. vm_compute. reflexivity. Qed.

(** ** The combination generator *)

Section combos.
Context {A : Type}.
Implicit Types (items : list A) (x : A) (n : nat).

Lemma generate_card_combos_0 items :
  CardDeck.generate_card_combos items 0 = [[]].
Proof. by destruct items. Qed.

Lemma generate_card_combos_nil n :
  CardDeck.generate_card_combos (@nil A) (S n) = [].
Proof. reflexivity. Qed.

Lemma bind_yield_cons x (combos : list (list A)) :
  (combos ≫= λ item, [x :: item]) = (x ::.) <$> combos.
Proof. induction combos as [|item combos IH]; [done|]. csimpl. by rewrite IH. Qed.

(** The selections with the first item come first, then those without
    it. *)
Lemma generate_card_combos_cons x items n :
  CardDeck.generate_card_combos (x :: items) (S n) =
  ((x ::.) <$> CardDeck.generate_card_combos items n) ++
  CardDeck.generate_card_combos items (S n).
Proof.
  cbn [CardDeck.generate_card_combos length seq].
  rewrite bind_cons. cbn [drop Nat.add lookup list_lookup].
  rewrite bind_yield_cons. f_equal.
  rewrite <- fmap_S_seq, list_fmap_bind. apply list_bind_ext; [|done].
  intros i. by cbn.
Qed.

Lemma length_generate_card_combos items n :
  length (CardDeck.generate_card_combos items n) = choose (length items) n.
Proof.
  revert n. induction items as [|x items IH]; intros [|n]; try done.
  rewrite generate_card_combos_cons, length_app, length_fmap, !IH. done.
Qed.

Lemma generate_card_combos_sublist items n combo :
  combo ∈ CardDeck.generate_card_combos items n →
  length combo = n ∧ combo `sublist_of` items.
Proof.
  revert n combo. induction items as [|x items IH]; intros [|n] combo.
  - intros ->%list_elem_of_singleton. by split.
  - by intros ?%elem_of_nil.
  - rewrite generate_card_combos_0. intros ->%list_elem_of_singleton.
    split; [done|]. apply sublist_nil_l.
  - rewrite generate_card_combos_cons, elem_of_app, list_elem_of_fmap.
    intros [(combo' & -> & [<- ?]%IH)|[<- ?]%IH].
    + split; [done|]. by constructor.
    + split; [done|]. by constructor.
Qed.

Lemma sublist_generate_card_combos items combo :
  combo `sublist_of` items →
  combo ∈ CardDeck.generate_card_combos items (length combo).
Proof.
  induction 1 as [|x combo items _ IH|x combo items _ IH].
  - by left.
  - cbn [length]. rewrite generate_card_combos_cons, elem_of_app. left.
    by apply list_elem_of_fmap_2.
  - destruct combo as [|y combo].
    + rewrite generate_card_combos_0. by left.
    + cbn [length] in *. rewrite generate_card_combos_cons, elem_of_app. by right.
Qed.

End combos.

Section positions.
Implicit Types (m n p : nat) (items combo : list nat).

Lemma choose_0_r m : choose m 0 = 1.
Proof. by destruct m. Qed.

Lemma choose_lt m n : m < n → choose m n = 0.
Proof.
  revert n. induction m as [|m IH]; intros [|n] Hlt; try done; try lia.
  cbn [choose]. rewrite !IH by lia. done.
Qed.

(** The generator count agrees with the factorial formula of the tests. *)
Lemma choose_fact m n : n ≤ m → choose m n * (fact n * fact (m - n)) = fact m.
Proof.
  revert n. induction m as [|m IH]; intros [|n] Hle; try lia.
  - done.
  - rewrite choose_0_r. cbn [fact Nat.sub]. lia.
  - cbn [choose]. replace (S m - S n) with (m - n) by lia.
    pose proof (IH n ltac:(lia)) as IHn.
    destruct (decide (n = m)) as [->|Hne].
    + rewrite (choose_lt m (S m)) by lia.
      replace (m - m) with 0 in * by lia.
      change (fact (S m)) with (S m * fact m). nia.
    + pose proof (IH (S n) ltac:(lia)) as IHSn.
      replace (m - n) with (S (m - S n)) in * by lia.
      change (fact (S m)) with (S m * fact m).
      change (fact (S n)) with (S n * fact n) in *.
      change (fact (S (m - S n))) with (S (m - S n) * fact (m - S n)) in *.
      assert (S n + S (m - S n) = S m) as Hsum by lia.
      set (a := choose m n) in *. set (b := choose m (S n)) in *.
      set (fn := fact n) in *. set (fk := fact (m - S n)) in *.
      set (k := S (m - S n)) in *. set (fm := fact m) in *.
      transitivity (S n * (a * (fn * (k * fk))) + k * (b * (S n * fn * fk)));
        [ring|].
      rewrite IHn, IHSn, <- Hsum. ring.
Qed.

Lemma sublist_elem_of combo items p :
  combo `sublist_of` items → p ∈ combo → p ∈ items.
Proof.
  induction 1 as [|q combo items _ IH|q combo items _ IH]; [done| |].
  - intros [->|?]%elem_of_cons; [by left|right; auto].
  - intros ?. right. auto.
Qed.

Lemma sublist_ascending combo items :
  combo `sublist_of` items → StronglySorted lt items → StronglySorted lt combo.
Proof.
  induction 1 as [|q combo items Hsub IH|q combo items _ IH];
    intros Hsorted; [done| |].
  - apply StronglySorted_inv in Hsorted as [? Hall]. constructor; [auto|].
    rewrite Forall_forall in *. intros p Hp. apply Hall.
    by eapply sublist_elem_of.
  - apply StronglySorted_inv in Hsorted as [? _]. auto.
Qed.

Lemma ascending_sublist_seq a m combo :
  StronglySorted lt combo → Forall (λ p, a ≤ p < a + m) combo →
  combo `sublist_of` seq a m.
Proof.
  revert a combo. induction m as [|m IH]; intros a combo Hsorted Hrange.
  - destruct combo as [|p combo]; [done|].
    apply Forall_cons_1 in Hrange as [? _]. lia.
  - cbn [seq]. destruct combo as [|p combo]; [apply sublist_nil_l|].
    apply StronglySorted_inv in Hsorted as [Hsorted Hlt].
    apply Forall_cons_1 in Hrange as [Hp Hrange].
    destruct (decide (p = a)) as [->|Hne].
    + apply sublist_skip, IH; [done|].
      rewrite Forall_forall in *. intros q Hq.
      specialize (Hlt q Hq). specialize (Hrange q Hq). lia.
    + apply sublist_cons, IH.
      * by constructor.
      * constructor; [lia|].
        rewrite Forall_forall in *. intros q Hq.
        specialize (Hlt q Hq). specialize (Hrange q Hq). lia.
Qed.

Lemma seq_ascending a m : StronglySorted lt (seq a m).
Proof.
  revert a. induction m as [|m IH]; intros a; cbn [seq]; constructor; [done|].
  apply Forall_forall. intros p Hp%elem_of_seq. lia.
Qed.

(** Over ascending items the selections come out in lexicographic
    order. *)
Lemma generate_card_combos_lex items n :
  StronglySorted lt items →
  StronglySorted lex_lt (CardDeck.generate_card_combos items n).
Proof.
  revert n. induction items as [|p items IH]; intros [|n] Hsorted.
  - repeat constructor.
  - constructor.
  - rewrite generate_card_combos_0. repeat constructor.
  - apply StronglySorted_inv in Hsorted as [Hsorted Hlt].
    rewrite generate_card_combos_cons. apply StronglySorted_app_2.
    + intros combo1 combo2 (combo & -> & _)%list_elem_of_fmap
        [Hlen Hsub]%generate_card_combos_sublist.
      destruct combo2 as [|q combo2]; [done|].
      apply lex_lt_head. rewrite Forall_forall in Hlt. apply Hlt.
      eapply sublist_elem_of; [done|by left].
    + eapply StronglySorted_fmap; [|by apply IH].
      intros ??. apply lex_lt_tail.
    + by apply IH.
Qed.

End positions.

(** C2. For [n ≤ m], the generator over the [m] positions of a deck yields
    exactly C(m, n) selections (the count [m! / (n! (m - n)!)] of the
    tests); the selections are exactly the strictly ascending sequences of
    [n] positions below [m]; they come out in strict lexicographic order;
    and size 0 yields the empty selection alone.  [card_position_combos]
    on a deck of [m] cards returns this sequence. *)
Theorem card_position_combos_spec (m n : nat) :
  n ≤ m →
  length (CardDeck.generate_card_combos (CardDeck.range m) n) = choose m n ∧
  length (CardDeck.generate_card_combos (CardDeck.range m) n)
    * (fact n * fact (m - n)) = fact m ∧
  (∀ combo, combo ∈ CardDeck.generate_card_combos (CardDeck.range m) n ↔
            length combo = n ∧ ascending_below m combo) ∧
  StronglySorted lex_lt (CardDeck.generate_card_combos (CardDeck.range m) n) ∧
  (n = 0 → CardDeck.generate_card_combos (CardDeck.range m) n = [[]]) ∧
  (∀ self cards,
     CardDeck.cards self = Some cards → length cards = m →
     CardDeck.card_position_combos self n =
       Return (CardDeck.generate_card_combos (CardDeck.range m) n)).
Proof.
  intros Hle. unfold CardDeck.range.
  assert (length (CardDeck.generate_card_combos (seq 0 m) n) = choose m n)
    as Hcount by (by rewrite length_generate_card_combos, length_seq).
  split_and!.
  - done.
  - rewrite Hcount. by apply choose_fact.
  - intros combo. split.
    + intros [Hlen Hsub]%generate_card_combos_sublist.
      split; [done|]. split.
      * eapply sublist_ascending; [done|]. apply seq_ascending.
      * apply Forall_forall. intros p Hp.
        pose proof (sublist_elem_of _ _ _ Hsub Hp) as Hin.
        apply elem_of_seq in Hin. lia.
    + intros [<- [Hsorted Hbelow]]. apply sublist_generate_card_combos.
      apply ascending_sublist_seq; [done|].
      eapply Forall_impl; [done|]. intros p Hp. simpl in *. lia.
  - apply generate_card_combos_lex, seq_ascending.
  - intros ->. apply generate_card_combos_0.
  - intros self cards Hcards <-.
    unfold CardDeck.card_position_combos, CardDeck.len. by rewrite Hcards.
Qed.

Lemma card_position_combos_spec_witness :
  CardDeck.generate_card_combos (CardDeck.range 4) 2 =
    [[0; 1]; [0; 2]; [0; 3]; [1; 2]; [1; 3]; [2; 3]] ∧
  length (CardDeck.generate_card_combos (CardDeck.range 4) 2) = choose 4 2 ∧
  choose 4 2 = 6.
Proof.
  split; [reflexivity|]. split; [|reflexivity].
  apply (card_position_combos_spec 4 2). lia.
Defined.

(** ** Decks: [add_card] *)

(** C1. A deck built without a file has no schema yet, and [add_card] on it
    raises instead of adopting the schema of the card: [features] is [None]
    there, and the test of the first branch takes its length. *)
Theorem add_card_fresh_deck_raises (card : Card.t) :
  (self ←' CardDeck.__init__ None; CardDeck.add_card self card)
  = Raise TypeError.
Proof. reflexivity. Qed.

(** The same happens after loading a file that has no line of feature
    names. *)
Lemma add_card_no_header_raises (card : Card.t) :
  (self ←' CardDeck.__init__ (Some ["# no cards"%string]);
   CardDeck.add_card self card) = Raise TypeError.
Proof. reflexivity. Qed.

(** On a deck that has a schema and a list of cards, [add_card] does not
    raise: it returns whether the card is compatible with the schema,
    appends the card when it is, and leaves the deck as it was when it is
    not. *)
Lemma add_card_with_schema (self : CardDeck.t) (card : Card.t) names cards :
  CardDeck.features self = Some names → names ≠ [] →
  CardDeck.cards self = Some cards →
  ∃ self',
    CardDeck.add_card self card =
      Return (Card.compatible card (Card.names names), self') ∧
    CardDeck.features self' = Some names ∧
    CardDeck.sets self' = CardDeck.sets self ∧
    CardDeck.feature_values self' = CardDeck.feature_values self ∧
    CardDeck.comments self' = CardDeck.comments self ∧
    (Card.compatible card (Card.names names) = true →
     CardDeck.cards self' = Some (cards ++ [card])) ∧
    (Card.compatible card (Card.names names) = false → self' = self).
Proof.
  intros Hnames Hne Hcards. unfold CardDeck.add_card. rewrite Hnames.
  rewrite bool_decide_eq_true_2 by (by destruct names). simpl.
  destruct (Card.compatible card (Card.names names)); simpl.
  - rewrite Hcards. simpl. eexists. split; [done|]. by split_and!.
  - exists self. by split_and!.
Qed.

(** [add_card] never touches the per-feature sets of distinct values. *)
Lemma add_card_feature_values (self self' : CardDeck.t) card added :
  CardDeck.add_card self card = Return (added, self') →
  CardDeck.feature_values self' = CardDeck.feature_values self.
Proof.
  unfold CardDeck.add_card, CardDeck.append. intros Hadd.
  repeat (case_match; simplify_eq/=); done.
Qed.

(** C10. After loading the cards [purple1], [green2] and [red3] from a
    file, [add_card] puts the card [blue4] into the deck and returns true,
    but the set of distinct values of the feature Color still lacks the
    value of that card. *)
Theorem add_card_skips_feature_values :
  ∃ self self' cards seen,
    CardDeck.__init__ (Some game_file) = Return self ∧
    CardDeck.add_card self blue4 = Return (true, self') ∧
    CardDeck.cards self' = Some cards ∧ blue4 ∈ cards ∧
    Card.features blue4 !! "Color"%string = Some "blue"%string ∧
    CardDeck.feature_values self' !! "Color"%string = Some seen ∧
    "blue"%string ∉ seen.
Proof.
  eexists _, _, _, _. split_and!.
  - vm_compute. reflexivity.
  - vm_compute. reflexivity.
  - vm_compute. reflexivity.
  - do 3 right. left.
  - vm_compute. reflexivity.
  - vm_compute. reflexivity.
  - compute_done.
Qed.

(** ** Decks: [solve] *)

(** Every record that [solve] builds comes from [CardSet(cards, combo)],
    which leaves [set_types] at [None]. *)
Lemma solve_loop_set_types cards combos sets sets' :
  CardDeck.solve_loop cards combos sets = Return sets' →
  Forall (λ found, CardSet.set_types found = None) sets →
  Forall (λ found, CardSet.set_types found = None) sets'.
Proof.
  revert sets. induction combos as [|combo combos IH]; intros sets; simpl.
  - by intros [= <-].
  - intros Hloop Hsets.
    destruct (comprehension _ combo) as [group|]; [simpl in Hloop|done].
    destruct (is_set group) as [set_match|]; [simpl in Hloop|done].
    destruct (truthy set_match); [|by eapply IH].
    eapply IH; [done|]. apply Forall_app. split; [done|]. by repeat constructor.
Qed.

Lemma solve_set_types (self self' : CardDeck.t) setsize found :
  CardDeck.solve self setsize = Return (found, self') →
  Forall (λ record, CardSet.set_types record = None) found.
Proof.
  unfold CardDeck.solve. intros Hsolve.
  destruct (CardDeck.len _); [simpl in Hsolve|done].
  destruct (CardDeck.card_position_combos _ _) as [combos|];
    [simpl in Hsolve|done].
  destruct (CardDeck.solve_loop _ combos _) as [sets'|] eqn:Hloop;
    simplify_eq/=.
  eapply solve_loop_set_types; [done|]. constructor.
Qed.

(** C3. On the deck loaded with [purple1], [green2] and [red3], [solve(3)]
    returns one record for the one combination, with the ascending
    positions and the cards; the group matcher returns the classification
    of each feature for that group, but the record does not hold it: its
    [set_types] is [None]. *)
Theorem solve_drops_set_types :
  ∃ self self' found,
    CardDeck.__init__ (Some game_file) = Return self ∧
    CardDeck.solve self 3 = Return ([found], self') ∧
    CardSet.card_positions found = Some [0; 1; 2] ∧
    CardSet.cards found = [purple1; green2; red3] ∧
    is_set (CardSet.cards found) =
      Return (Some (list_to_map [("Color", DIFFERENT); ("Number", DIFFERENT);
                                 ("Shape", SAME); ("Fill", SAME)]%string)) ∧
    CardSet.set_types found = None.
Proof.
  eexists _, _, _. split_and!.
  - vm_compute. reflexivity.
  - vm_compute. reflexivity.
  - reflexivity.
  - vm_compute. reflexivity.
  - vm_compute. reflexivity.
  - reflexivity.
Qed.

Lemma load_line_schema_before_cards self line self' :
  schema_before_cards self → CardDeck.load_line self line = Return self' →
  schema_before_cards self'.
Proof.
  unfold schema_before_cards, CardDeck.load_line. intros Hinv Hload.
  destruct (_ || _).
  - destruct (CardDeck.append (CardDeck.comments self) _); by simplify_eq/=.
  - destruct (CardDeck.features self) as [[|name names]|] eqn:Hnames.
    + by simplify_eq/=.
    + case_decide; [simplify_eq; by rewrite Hnames|].
      destruct (CardDeck.append (CardDeck.cards self) _); [simpl in Hload|done].
      destruct (CardDeck.add_values _ _); by simplify_eq/=.
    + by simplify_eq/=.
Qed.

Lemma load_lines_schema_before_cards self lines self' :
  schema_before_cards self → CardDeck.load_lines self lines = Return self' →
  schema_before_cards self'.
Proof.
  revert self. induction lines as [|line lines IH]; intros self Hinv; simpl.
  - by intros [= <-].
  - destruct (CardDeck.load_line self line) as [self1|] eqn:Hline; [|done].
    simpl. apply IH. by eapply load_line_schema_before_cards.
Qed.

Lemma reachable_schema_before_cards self :
  reachable self → schema_before_cards self.
Proof.
  induction 1 as [file self Hinit|self lines self' _ _ Hload
                 |self card added self' _ _ Hadd
                 |self setsize found self' _ IH Hsolve].
  - destruct file as [lines|]; simpl in Hinit.
    + eapply load_lines_schema_before_cards; [|done]. intros _. by right.
    + injection Hinit as <-. intros _. by left.
  - eapply load_lines_schema_before_cards; [|done]. intros _. by right.
  - unfold CardDeck.add_card, CardDeck.append in Hadd.
    repeat (case_match; simplify_eq/=);
      unfold schema_before_cards; simpl; intros ?; congruence.
  - unfold CardDeck.solve in Hsolve.
    destruct (CardDeck.len _); [simpl in Hsolve|done].
    destruct (CardDeck.card_position_combos _ _); [simpl in Hsolve|done].
    destruct (CardDeck.solve_loop _ _ _); simplify_eq/=. exact IH.
Qed.

(** Asking for more positions than there are yields no selection. *)
Lemma generate_card_combos_gt {A} (items : list A) n :
  length items < n → CardDeck.generate_card_combos items n = [].
Proof.
  intros Hlt. apply nil_length_inv.
  rewrite length_generate_card_combos. by apply choose_lt.
Qed.

(** [solve(0)] on a deck with a schema: the one empty selection is no
    set. *)
Lemma solve_0 (self : CardDeck.t) names cards :
  CardDeck.features self = Some names → CardDeck.cards self = Some cards →
  CardDeck.solve self 0 = Return ([], CardDeck.set_sets self []).
Proof.
  intros Hnames Hcards.
  unfold CardDeck.solve, CardDeck.card_position_combos. simpl.
  by rewrite Hnames, Hcards.
Qed.

(** [solve(k)] on a deck with a schema and fewer than [k] cards. *)
Lemma solve_gt (self : CardDeck.t) names cards k :
  CardDeck.features self = Some names → CardDeck.cards self = Some cards →
  length cards < k →
  CardDeck.solve self k = Return ([], CardDeck.set_sets self []).
Proof.
  intros Hnames Hcards Hlt.
  unfold CardDeck.solve, CardDeck.card_position_combos. simpl.
  rewrite Hnames, Hcards. cbn [CardDeck.len py_bind].
  rewrite generate_card_combos_gt; [done|].
  unfold CardDeck.range. by rewrite length_seq.
Qed.

(** C6. On every non-empty deck that the constructor and the methods
    produce, [solve(0)] returns the empty list, and so does [solve(k)] for
    every [k] above the number of cards; neither raises, and the deck keeps
    the empty list as its result. *)
Theorem solve_pathological_sizes (self : CardDeck.t) (cards : list Card.t) :
  reachable self → CardDeck.cards self = Some cards → cards ≠ [] →
  CardDeck.solve self 0 = Return ([], CardDeck.set_sets self []) ∧
  ∀ k, length cards < k →
       CardDeck.solve self k = Return ([], CardDeck.set_sets self []).
Proof.
  intros Hreach%reachable_schema_before_cards Hcards Hne.
  destruct (CardDeck.features self) as [names|] eqn:Hnames.
  - split; [by eapply solve_0|]. intros k Hk. by eapply solve_gt.
  - destruct (Hreach Hnames); congruence.
Qed.

Lemma solve_pathological_sizes_witness :
  ∃ self,
    CardDeck.__init__ (Some game_file) = Return self ∧
    CardDeck.cards self = Some [purple1; green2; red3] ∧
    CardDeck.solve self 0 = Return ([], CardDeck.set_sets self []) ∧
    CardDeck.solve self 4 = Return ([], CardDeck.set_sets self []).
Proof.
  eexists. split; [vm_compute; reflexivity|].
  split; [vm_compute; reflexivity|].
  match goal with
  | |- CardDeck.solve ?self _ = _ ∧ _ =>
      destruct (solve_pathological_sizes self [purple1; green2; red3])
        as [Hzero Hmore]
  end.
  - by apply (reachable_init (Some game_file)).
  - vm_compute. reflexivity.
  - done.
  - split; [exact Hzero|]. apply Hmore. simpl. lia.
Defined.

(** ** Decks: [load_file] *)

Lemma split_nonempty sep s : split sep s ≠ [].
Proof.
  destruct s as [|a s]; simpl; [done|].
  destruct (Ascii.eqb a sep); [done|]. by destruct (split sep s).
Qed.

Lemma dict_zip_fold_dom (names fields : list string) (d : gmap string string) :
  length names = length fields →
  dom (foldl (λ d kv, <[kv.1 := kv.2]> d) d (zip names fields)) =
  dom d ∪ list_to_set names.
Proof.
  revert fields d. induction names as [|name names IH];
    intros [|field fields] d Hlen; simplify_eq/=.
  - by rewrite union_empty_r_L.
  - rewrite IH by done. rewrite dom_insert_L. set_solver.
Qed.

Lemma dom_dict_zip (names fields : list string) :
  length names = length fields →
  dom (CardDeck.dict_zip names fields) = list_to_set names.
Proof.
  intros Hlen. unfold CardDeck.dict_zip.
  rewrite dict_zip_fold_dom by done. by rewrite dom_empty_L, union_empty_l_L.
Qed.

Lemma reset_values_dom (names : list string) (fv : gmap string (gset string)) :
  dom (foldl (λ fv feat, <[feat := ∅]> fv) fv names) = dom fv ∪ list_to_set names.
Proof.
  revert fv. induction names as [|name names IH]; intros fv; simpl.
  - by rewrite union_empty_r_L.
  - rewrite IH, dom_insert_L. set_solver.
Qed.

(** Adding the values of a card whose names all have a set: no set is
    lost or shrinks, and every value of the card is in the set of its
    name afterwards. *)
Lemma add_values_spec (items : list (string * string))
    (fv : gmap string (gset string)) :
  (∀ feat value, (feat, value) ∈ items → feat ∈ dom fv) →
  ∃ fv',
    CardDeck.add_values items fv = Return fv' ∧
    dom fv' = dom fv ∧
    (∀ feat seen, fv !! feat = Some seen →
       ∃ seen', fv' !! feat = Some seen' ∧ seen ⊆ seen') ∧
    (∀ feat value, (feat, value) ∈ items →
       ∃ seen', fv' !! feat = Some seen' ∧ value ∈ seen').
Proof.
  revert fv. induction items as [|[feat value] items IH]; intros fv Hkeys.
  - exists fv. split_and!; [done..| |].
    + intros ?? ->. eauto.
    + by intros ?? ?%elem_of_nil.
  - assert (feat ∈ dom fv) as [seen Hseen]%elem_of_dom
      by (eapply Hkeys; by left).
    cbn [CardDeck.add_values]. unfold getitem. rewrite Hseen.
    cbn [py_bind].
    assert (∃ fv1,
      (if decide (value ∉ seen)
       then CardDeck.add_values items (<[feat := seen ∪ {[value]}]> fv)
       else CardDeck.add_values items fv) = CardDeck.add_values items fv1 ∧
      dom fv1 = dom fv ∧
      (∀ feat' seen0, fv !! feat' = Some seen0 →
         ∃ seen1, fv1 !! feat' = Some seen1 ∧ seen0 ⊆ seen1) ∧
      (∃ seen1, fv1 !! feat = Some seen1 ∧ value ∈ seen1))
      as (fv1 & -> & Hdom1 & Hmono1 & seen1 & Hseen1 & Hvalue1).
    { case_decide as Hnew.
      - exists (<[feat := seen ∪ {[value]}]> fv). split_and!; [done| | |].
        + rewrite dom_insert_L. apply elem_of_dom_2 in Hseen. set_solver.
        + intros feat' seen0 Hseen0.
          destruct (decide (feat' = feat)) as [->|Hne].
          * rewrite lookup_insert_eq. simplify_eq. eexists. split; [done|].
            set_solver.
          * rewrite lookup_insert_ne by done. eauto.
        + rewrite lookup_insert_eq. eexists. split; [done|]. set_solver.
      - exists fv. split_and!; [done..| |].
        + intros ?? ->. eauto.
        + exists seen. split; [done|].
          by destruct (decide (value ∈ seen)). }
    destruct (IH fv1) as (fv' & Hadd & Hdom & Hmono & Hitems).
    { intros feat' value' Hin. rewrite Hdom1. eapply Hkeys. by right. }
    exists fv'. split_and!; [done|congruence| |].
    + intros feat' seen0 Hseen0.
      destruct (Hmono1 _ _ Hseen0) as (seen2 & Hseen2 & ?).
      destruct (Hmono _ _ Hseen2) as (seen3 & ? & ?).
      exists seen3. split; [done|]. set_solver.
    + intros feat' value' [[= -> ->]|Hin]%elem_of_cons; [|by eapply Hitems].
      destruct (Hmono _ _ Hseen1) as (seen3 & ? & ?).
      exists seen3. split; [done|]. set_solver.
Qed.

(** One line of the file keeps the deck loadable and its per-feature sets
    complete; reading it never raises. *)
Lemma load_line_loading (self : CardDeck.t) (line : string) :
  loading self → values_recorded self →
  ∃ self', CardDeck.load_line self line = Return self' ∧
           loading self' ∧ values_recorded self'.
Proof.
  intros Hloading Hrecorded.
  pose proof Hloading as [[cards Hcards] [comments Hcomments] Hnone Hschema].
  unfold CardDeck.load_line. destruct (_ || _).
  { rewrite Hcomments. simpl. eexists. split; [done|]. split; [|done].
    split; simpl; eauto. }
  destruct (CardDeck.features self) as [[|name names]|] eqn:Hnames.
  - by destruct (Hschema [] eq_refl) as [? _].
  - destruct (Hschema _ eq_refl) as (_ & Hsets & Hdoms).
    case_decide as Hlen; [by exists self|].
    rewrite Hcards. cbn [CardDeck.append py_bind].
    set (card_features := CardDeck.dict_zip (name :: names) (split tab (strip line))).
    assert (dom card_features = list_to_set (name :: names)) as Hdom
      by (by apply dom_dict_zip).
    destruct (add_values_spec (map_to_list card_features)
                (CardDeck.feature_values self))
      as (fv' & -> & Hdomfv & Hmono & Hitems).
    { intros feat value Hin%elem_of_map_to_list. apply Hsets.
      apply (elem_of_list_to_set (C:=gset string)). rewrite <- Hdom.
      by apply elem_of_dom_2 in Hin. }
    cbn [py_bind]. eexists. split; [done|]. split.
    + split; simpl; eauto; [congruence|].
      intros ? [= <-]. split_and!; [done| |].
      * intros feat Hfeat. rewrite Hdomfv. by apply Hsets.
      * intros ? card [= <-] [Hold|Hnew%list_elem_of_singleton]%elem_of_app;
          [by eapply Hdoms|by subst card].
    + intros ? card feat value [= <-]
        [Hold|Hnew%list_elem_of_singleton]%elem_of_app Hvalue;
        [|subst card]; simpl in *.
      * destruct (Hrecorded _ _ _ _ Hcards Hold Hvalue) as (seen & Hseen & ?).
        destruct (Hmono _ _ Hseen) as (seen' & ? & ?).
        exists seen'. split; [done|]. set_solver.
      * apply Hitems. by apply elem_of_map_to_list.
  - rewrite (Hnone eq_refl) in Hcards. eexists. split; [done|]. split.
    + split; simpl; eauto.
      intros ? [= <-]. split_and!.
      * apply split_nonempty.
      * intros feat Hfeat. rewrite reset_values_dom.
        apply elem_of_union_r. by apply elem_of_list_to_set.
      * intros ?? Hsome. rewrite (Hnone eq_refl) in Hsome.
        injection Hsome as <-. by intros ?%elem_of_nil.
    + intros ???? Hsome. simpl in Hsome. rewrite (Hnone eq_refl) in Hsome.
      injection Hsome as <-. by intros ?%elem_of_nil.
Qed.

Lemma load_lines_loading (self : CardDeck.t) (lines : list string) :
  loading self → values_recorded self →
  ∃ self', CardDeck.load_lines self lines = Return self' ∧
           loading self' ∧ values_recorded self'.
Proof.
  revert self. induction lines as [|line lines IH]; intros self Hload Hrec.
  - by exists self.
  - destruct (load_line_loading self line Hload Hrec) as (self1 & Hline & ? & ?).
    simpl. rewrite Hline. simpl. by apply IH.
Qed.

(** [load_file] never raises on the lines of a file, and afterwards every
    feature value of every card of the deck is in the set of distinct
    values of its feature. *)
Lemma load_file_values_recorded (self : CardDeck.t) (lines : list string) :
  ∃ self', CardDeck.load_file self lines = Return self' ∧
           loading self' ∧ values_recorded self'.
Proof.
  apply load_lines_loading.
  - split; simpl; eauto; done.
  - intros ???? [= <-]. by intros ?%elem_of_nil.
Qed.

(** ** Decks: what [solve] returns *)

Lemma comprehension_list_getitem (cards : list Card.t) (combo : list nat) :
  Forall (λ position, position < length cards) combo →
  comprehension (list_getitem cards) combo = Return (cards_at cards combo).
Proof.
  induction 1 as [|position combo Hlt _ IH]; [done|].
  apply lookup_lt_is_Some_2 in Hlt as [card Hcard].
  unfold cards_at. simpl. unfold list_getitem at 1. rewrite Hcard, IH. done.
Qed.

Lemma cards_at_elem_of (cards : list Card.t) (combo : list nat) card :
  card ∈ cards_at cards combo → card ∈ cards.
Proof.
  unfold cards_at. rewrite list_elem_of_omap.
  intros (position & _ & Hcard). by eapply list_elem_of_lookup_2.
Qed.

(** The loop of [solve], when every selection is within the deck and the
    group matcher does not raise on it. *)
Lemma solve_loop_matches (cards : list Card.t) combos sets :
  (∀ combo, combo ∈ combos →
     Forall (λ position, position < length cards) combo ∧
     ∃ set_match, is_set (cards_at cards combo) = Return set_match) →
  CardDeck.solve_loop (Some cards) combos sets =
  Return (sets ++ matches cards combos).
Proof.
  revert sets. induction combos as [|combo combos IH]; intros sets Hcombos.
  - simpl. by rewrite app_nil_r.
  - destruct (Hcombos combo) as [Hpos [set_match Hset]]; [by left|].
    cbn [CardDeck.solve_loop]. rewrite !comprehension_list_getitem by done.
    cbn [py_bind]. rewrite Hset. cbn [py_bind].
    unfold matches. cbn [omap list_omap]. unfold is_match at 1. rewrite Hset.
    fold (matches cards combos).
    destruct (truthy set_match).
    + rewrite IH by (intros ??; apply Hcombos; by right).
      by rewrite <- app_assoc.
    + apply IH. intros ??. apply Hcombos. by right.
Qed.

(** Cards with the same names are pairwise compatible. *)
Lemma same_names_pairwise_compatible (group : list Card.t) (names : gset string) :
  (∀ card, card ∈ group → dom (Card.features card) = names) →
  pairwise_compatible group.
Proof.
  intros Hdoms c1 c2 Hc1 Hc2. apply compatible_true. simpl.
  by rewrite (Hdoms c1), (Hdoms c2).
Qed.

(** On a group of cards that share a non-empty schema the group matcher
    does not raise, and what it returns is true as a condition exactly
    when it is a dictionary. *)
Lemma is_set_same_names (group : list Card.t) (names : gset string) :
  names ≠ ∅ →
  (∀ card, card ∈ group → dom (Card.features card) = names) →
  ∃ set_match, is_set group = Return set_match ∧
               truthy set_match = bool_decide (is_Some set_match).
Proof.
  intros Hne Hdoms.
  pose proof (same_names_pairwise_compatible _ _ Hdoms) as Hcompat.
  destruct group as [|card0 group]; [by exists None|].
  destruct (is_set_cons card0 group Hcompat)
    as [[Hset _]|(set_types & Hset & Hdom & _)].
  - by exists None.
  - exists (Some set_types). split; [done|].
    simpl. rewrite bool_decide_eq_false_2; [done|].
    intros ->. rewrite dom_empty_L in Hdom.
    rewrite (Hdoms card0) in Hdom; [done|]. by left.
Qed.

(** [solve] on a deck whose cards share the non-empty schema of the deck:
    the result list is rebuilt from the empty list, and holds the records
    of exactly the selections the group matcher accepts, in the order of
    the generator. *)
Lemma solve_matches (self : CardDeck.t) names cards setsize :
  CardDeck.features self = Some names → names ≠ [] →
  CardDeck.cards self = Some cards →
  (∀ card, card ∈ cards → dom (Card.features card) = list_to_set names) →
  CardDeck.solve self setsize =
    Return (matches cards (CardDeck.generate_card_combos
                             (CardDeck.range (length cards)) setsize),
            CardDeck.set_sets self
              (matches cards (CardDeck.generate_card_combos
                                (CardDeck.range (length cards)) setsize))).
Proof.
  intros Hnames Hne Hcards Hdoms.
  unfold CardDeck.solve, CardDeck.card_position_combos.
  cbn [CardDeck.set_sets CardDeck.features CardDeck.cards CardDeck.sets
       CardDeck.feature_values CardDeck.comments].
  rewrite Hnames, Hcards. cbn [CardDeck.len py_bind].
  rewrite solve_loop_matches; [done|].
  intros combo [_ Hsub]%generate_card_combos_sublist. split.
  - apply Forall_forall. intros position Hposition.
    pose proof (sublist_elem_of _ _ _ Hsub Hposition) as Hin.
    apply elem_of_seq in Hin. lia.
  - destruct (is_set_same_names (cards_at cards combo) (list_to_set names))
      as (set_match & ? & _); [|by eauto using cards_at_elem_of|by eauto].
    destruct names as [|name names']; [done|].
    rewrite list_to_set_cons. set_solver.
Qed.

Lemma solve_deck (self self' : CardDeck.t) setsize found :
  CardDeck.solve self setsize = Return (found, self') →
  self' = CardDeck.set_sets self found ∧ is_Some (CardDeck.features self).
Proof.
  unfold CardDeck.solve, CardDeck.card_position_combos.
  cbn [CardDeck.set_sets CardDeck.features CardDeck.cards CardDeck.sets
       CardDeck.feature_values CardDeck.comments].
  intros Hsolve.
  destruct (CardDeck.features self) as [names|]; [simpl in Hsolve|done].
  destruct (CardDeck.cards self) as [cards|]; [simpl in Hsolve|done].
  destruct (CardDeck.solve_loop _ _ _); simplify_eq/=. by split.
Qed.

Lemma add_card_loading (self self' : CardDeck.t) card added :
  loading self → CardDeck.add_card self card = Return (added, self') →
  loading self'.
Proof.
  intros Hloading Hadd.
  pose proof Hloading as [[cards Hcards] ? Hnone Hschema].
  destruct (CardDeck.features self) as [names|] eqn:Hnames;
    [|by unfold CardDeck.add_card in Hadd; rewrite Hnames in Hadd].
  destruct (Hschema names eq_refl) as (Hne & Hsets & Hdoms).
  destruct (add_card_with_schema self card names cards)
    as (self1 & Hadd1 & Hnames1 & _ & Hvalues1 & Hcomments1 & Htrue & Hfalse);
    [done..|].
  rewrite Hadd1 in Hadd. injection Hadd as <- <-.
  destruct (Card.compatible card (Card.names names)) eqn:Hcompat;
    [|by rewrite Hfalse].
  specialize (Htrue eq_refl). apply compatible_true in Hcompat.
  split; [by rewrite Htrue|by rewrite Hcomments1|congruence|].
  intros ? Hnames'. rewrite Hnames1 in Hnames'. injection Hnames' as <-.
  split_and!; [done|by rewrite Hvalues1|].
  intros ? card'. rewrite Htrue. intros [= <-].
  intros [?|Hnew%list_elem_of_singleton]%elem_of_app;
    [by eapply Hdoms|by subst card'].
Qed.

(** A deck that the constructor and the methods produce is either the
    deck built without a file, or a loaded deck. *)
Lemma reachable_loading (self : CardDeck.t) :
  reachable self →
  (CardDeck.features self = None ∧ CardDeck.cards self = None) ∨ loading self.
Proof.
  induction 1 as [file self Hinit|self lines self' _ _ Hload
                 |self card added self' _ IH Hadd
                 |self setsize found self' _ IH Hsolve].
  - destruct file as [lines|]; simpl in Hinit.
    + destruct (load_file_values_recorded
                  {| CardDeck.features := None; CardDeck.cards := None;
                     CardDeck.sets := []; CardDeck.feature_values := ∅;
                     CardDeck.comments := None |} lines)
        as (self1 & Hload & ? & _).
      rewrite Hload in Hinit. injection Hinit as <-. by right.
    + injection Hinit as <-. by left.
  - destruct (load_file_values_recorded self lines) as (self1 & Hload1 & ? & _).
    rewrite Hload1 in Hload. injection Hload as <-. by right.
  - destruct IH as [[Hnone _]|Hloading].
    + unfold CardDeck.add_card in Hadd. by rewrite Hnone in Hadd.
    + right. by eapply add_card_loading.
  - apply solve_deck in Hsolve as [-> _]. destruct IH as [?|[]]; [by left|].
    right. by split.
Qed.

(** [solve] on any deck that the constructor and the methods produce, once
    it has a schema: whatever the deck held as result before, the call
    returns the records of the accepted selections, in generator order. *)
Lemma solve_reachable (self : CardDeck.t) names setsize :
  reachable self → CardDeck.features self = Some names →
  ∃ cards,
    CardDeck.cards self = Some cards ∧
    CardDeck.solve self setsize =
      Return (matches cards (CardDeck.generate_card_combos
                               (CardDeck.range (length cards)) setsize),
              CardDeck.set_sets self
                (matches cards (CardDeck.generate_card_combos
                                  (CardDeck.range (length cards)) setsize))).
Proof.
  intros [[? _]|[[cards Hcards] _ _ Hschema]]%reachable_loading Hnames;
    [congruence|].
  destruct (Hschema names Hnames) as (Hne & _ & Hdoms).
  exists cards. split; [done|]. eapply solve_matches; eauto.
Qed.

(** * Further properties *)

(** ** The example deck *)

Lemma game_deck_loaded : CardDeck.__init__ (Some game_file) = Return game_deck.
Proof. vm_compute. reflexivity. Qed.

Lemma reachable_game_deck : reachable game_deck.
Proof. apply (reachable_init (Some game_file)), game_deck_loaded. Qed.

Lemma blue4_compatible :
  Card.compatible blue4
    (Card.names ["Color"; "Number"; "Shape"; "Fill"]%string) = true.
Proof. vm_compute. reflexivity. Qed.

Lemma game_deck_Color :
  "Color"%string ∈ dom (CardDeck.feature_values solved_deck).
Proof. compute_done. Qed.

(** ** Cards *)

Global Instance card_eq_dec : EqDecision Card.t.
Proof. solve_decision. Defined.

Lemma card_eq_features (c1 c2 : Card.t) :
  c1 = c2 ↔ ∀ feat, Card.features c1 !! feat = Card.features c2 !! feat.
Proof.
  split; [by intros ->|]. intros Hall.
  destruct c1 as [d1], c2 as [d2]. f_equal. by apply map_eq.
Qed.

(** X1. [__eq__] never raises on two cards, and returns true exactly when
    the two cards hold the same dictionary: the same feature names with
    the same values. *)
Theorem __eq___decides_equality (firstCard SecondCard : Card.t) :
  Card.__eq__ firstCard SecondCard =
  Return (bool_decide (firstCard = SecondCard)).
Proof.
  destruct (Card.compatible firstCard (Card.a_card SecondCard)) eqn:Hcompat.
  - destruct (__eq___compatible _ _ Hcompat) as (b & -> & Hb).
    f_equal. rewrite <- card_eq_features in Hb. destruct b.
    + symmetry. by apply bool_decide_eq_true_2, Hb.
    + symmetry. apply bool_decide_eq_false_2. intros ?%Hb. done.
  - unfold Card.__eq__. rewrite Hcompat. simpl. f_equal.
    symmetry. apply bool_decide_eq_false_2. intros ->.
    apply compatible_false in Hcompat. by apply Hcompat.
Qed.

(** X2. Compatibility between cards is an equivalence: every card is
    compatible with itself, the answer does not depend on which of two
    cards is asked, and it carries over a card in the middle. *)
Theorem compatible_equivalence (c1 c2 c3 : Card.t) :
  Card.compatible c1 (Card.a_card c1) = true ∧
  Card.compatible c1 (Card.a_card c2) = Card.compatible c2 (Card.a_card c1) ∧
  (Card.compatible c1 (Card.a_card c2) = true →
   Card.compatible c2 (Card.a_card c3) = true →
   Card.compatible c1 (Card.a_card c3) = true).
Proof.
  split_and!.
  - by apply compatible_true.
  - destruct (Card.compatible c2 (Card.a_card c1)) eqn:Hc.
    + apply compatible_true in Hc. by apply compatible_true.
    + apply compatible_false in Hc. apply compatible_false. simpl in *.
      congruence.
  - rewrite !compatible_true. simpl. congruence.
Qed.

(** ** The feature classifier, by the values themselves *)

Lemma size_py_set_1 (values : list string) :
  size (py_set values) = 1 ↔
  ∃ v, values ≠ [] ∧ Forall (λ v', v' = v) values.
Proof.
  split.
  - intros Hsize. destruct (size_1_elem_of _ Hsize) as [v Hv].
    exists v. split.
    + intros ->. by rewrite py_set_nil, size_empty in Hsize.
    + apply Forall_forall. intros v' Hv'%elem_of_py_set.
      rewrite Hv in Hv'. by apply elem_of_singleton in Hv'.
  - intros (v & Hne & Hall). rewrite Forall_forall in Hall.
    assert (py_set values = {[v]}) as ->; [|by rewrite size_singleton].
    apply set_eq. intros v'. rewrite elem_of_py_set, elem_of_singleton.
    split; [by apply Hall|]. intros ->.
    destruct values as [|v0 values]; [done|].
    rewrite <- (Hall v0) by left. by left.
Qed.

(** X3. The classifier returns Same exactly on a non-empty sequence whose
    values are all equal, and Different exactly on a sequence of pairwise
    distinct values that is not a single value; so the empty sequence is
    Different, and two values always classify. *)
Theorem is_feature_a_set_by_values (feat_values : list string) :
  (is_feature_a_set feat_values = Some SAME ↔
   ∃ v, feat_values ≠ [] ∧ Forall (λ v', v' = v) feat_values) ∧
  (is_feature_a_set feat_values = Some DIFFERENT ↔
   NoDup feat_values ∧ length feat_values ≠ 1) ∧
  (length feat_values ≤ 2 → is_feature_a_set feat_values ≠ None).
Proof.
  split_and!.
  - by rewrite is_feature_a_set_same, size_py_set_1.
  - rewrite is_feature_a_set_different, <- size_py_set_NoDup.
    split; intros [? ?]; split; congruence.
  - intros Hlen Hnone. apply is_feature_a_set_false in Hnone as [Hne1 Hnek].
    destruct feat_values as [|a [|b [|c values]]]; simpl in Hlen; try lia.
    + by rewrite py_set_nil, size_empty in Hnek.
    + by rewrite py_set_cons, py_set_nil, union_empty_r_L, size_singleton
        in Hne1.
    + destruct (decide (a = b)) as [->|Hab].
      * apply Hne1, size_py_set_1. exists b. split; [done|].
        by repeat constructor.
      * apply Hnek, size_py_set_NoDup. repeat constructor; set_solver.
Qed.

(** ** The group matcher: edge cases *)

Section matcher_edges.
Implicit Types (cards group : list Card.t) (card : Card.t) (feat : string).

(** A column only ever raises [KeyError]. *)
Lemma column_Raise feat cards e : column feat cards = Raise e → e = KeyError.
Proof.
  unfold column. induction cards as [|card cards IH]; [done|]. simpl.
  unfold getitem at 1. destruct (Card.features card !! feat); [|by intros [=]].
  simpl. destruct (comprehension _ cards); [done|]. simpl.
  intros [= <-]. by apply IH.
Qed.

(** A column raises as soon as one card lacks the feature. *)
Lemma column_missing feat cards card :
  card ∈ cards → Card.features card !! feat = None →
  column feat cards = Raise KeyError.
Proof.
  unfold column. induction cards as [|card' cards IH]; [by intros ?%elem_of_nil|].
  intros [->|Hin]%elem_of_cons Hnone; simpl; unfold getitem at 1.
  - by rewrite Hnone.
  - destruct (Card.features card' !! feat); [|done]. simpl.
    by rewrite IH.
Qed.

(** Groups that agree on a feature have the same column. *)
Lemma column_agree feat group1 group2 :
  Forall2 (λ c1 c2, Card.features c1 !! feat = Card.features c2 !! feat)
          group1 group2 →
  column feat group1 = column feat group2.
Proof.
  unfold column. induction 1 as [|c1 c2 group1 group2 Hfeat _ IH]; [done|].
  simpl. unfold getitem at 1 3. by rewrite Hfeat, IH.
Qed.

Lemma is_set_loop_agree feats group1 group2 set_types :
  (∀ feat, feat ∈ feats → column feat group1 = column feat group2) →
  is_set_loop feats group1 set_types = is_set_loop feats group2 set_types.
Proof.
  revert set_types. induction feats as [|feat feats IH]; intros set_types Hcols;
    [done|].
  simpl. rewrite (Hcols feat) by left.
  destruct (column feat group2) as [values|]; [simpl|done].
  destruct (is_feature_a_set values); [|done].
  apply IH. intros ??. apply Hcols. by right.
Qed.

Lemma is_set_loop_missing feats cards set_types feat :
  feat ∈ feats → column feat cards = Raise KeyError →
  is_set_loop feats cards set_types = Return None ∨
  is_set_loop feats cards set_types = Raise KeyError.
Proof.
  revert set_types. induction feats as [|feat' feats IH]; intros set_types;
    [by intros ?%elem_of_nil|].
  intros Hin Hraise. simpl.
  destruct (column feat' cards) as [values|e] eqn:Hcol; simpl.
  - destruct (is_feature_a_set values); [|by left].
    apply IH; [|done]. apply elem_of_cons in Hin as [->|?]; [congruence|done].
  - right. by rewrite (column_Raise _ _ _ Hcol).
Qed.

Lemma column_single feat card values :
  column feat [card] = Return values →
  ∃ v, Card.features card !! feat = Some v ∧ values = [v].
Proof.
  unfold column. simpl. unfold getitem.
  destruct (Card.features card !! feat) as [v|]; [simpl|done].
  intros [= <-]. by exists v.
Qed.

Lemma is_feature_a_set_one (v : string) : is_feature_a_set [v] = Some SAME.
Proof.
  apply is_feature_a_set_same, size_py_set_1. exists v.
  split; [done|]. by repeat constructor.
Qed.

End matcher_edges.

(** X4. Any single card is a set: the group matcher returns Same for each
    of its features. *)
Theorem is_set_single (card : Card.t) :
  is_set [card] = Return (Some ((λ _, SAME) <$> Card.features card)).
Proof.
  destruct (is_set_cons card []) as
    [(_ & feat & values & Hfeat & Hcol & Hnone)
    |(set_types & -> & Hdom & Hall)].
  - intros ?? ->%list_elem_of_singleton ->%list_elem_of_singleton.
    by apply compatible_true.
  - apply column_single in Hcol as (v & _ & ->).
    by rewrite is_feature_a_set_one in Hnone.
  - do 2 f_equal. apply map_eq. intros feat. rewrite lookup_fmap.
    destruct (Card.features card !! feat) as [v|] eqn:Hv; simpl.
    + destruct (Hall feat) as (values & t & Hcol & Ht & ->).
      { by apply elem_of_dom. }
      apply column_single in Hcol as (v' & _ & ->).
      by rewrite is_feature_a_set_one in Ht.
    + apply not_elem_of_dom. rewrite Hdom. by apply not_elem_of_dom.
Qed.

(** X5. Any two compatible cards are a set: the group matcher returns,
    for each feature, Same when the two values are equal and Different
    when they are not. *)
Theorem is_set_pair (c1 c2 : Card.t) :
  Card.compatible c1 (Card.a_card c2) = true →
  ∃ set_types,
    is_set [c1; c2] = Return (Some set_types) ∧
    dom set_types = dom (Card.features c1) ∧
    ∀ feat v1 v2,
      Card.features c1 !! feat = Some v1 → Card.features c2 !! feat = Some v2 →
      set_types !! feat = Some (if decide (v1 = v2) then SAME else DIFFERENT).
Proof.
  intros Hcompat.
  assert (∀ feat values, column feat [c1; c2] = Return values →
            ∃ v1 v2, Card.features c1 !! feat = Some v1 ∧
                     Card.features c2 !! feat = Some v2 ∧ values = [v1; v2])
    as Hcolumn.
  { intros feat values. unfold column. simpl. unfold getitem.
    destruct (Card.features c1 !! feat) as [v1|]; [simpl|done].
    destruct (Card.features c2 !! feat) as [v2|]; [simpl|done].
    intros [= <-]. by exists v1, v2. }
  assert (∀ v1 v2, is_feature_a_set [v1; v2] =
                   Some (if decide (v1 = v2) then SAME else DIFFERENT))
    as Hclassify.
  { intros v1 v2. case_decide as Heq.
    - subst v2. apply is_feature_a_set_same, size_py_set_1.
      exists v1. split; [done|]. by repeat constructor.
    - apply is_feature_a_set_different.
      assert (NoDup [v1; v2]) as Hnodup by (repeat constructor; set_solver).
      apply size_py_set_NoDup in Hnodup.
      split; [rewrite Hnodup; simpl; lia|done]. }
  destruct (is_set_cons c1 [c2]) as
    [(_ & feat & values & _ & Hcol & Hnone)
    |(set_types & -> & Hdom & Hall)].
  - apply compatible_true in Hcompat. simpl in Hcompat.
    apply pairwise_compatible_Forall.
    repeat constructor; apply compatible_true; simpl; congruence.
  - destruct (Hcolumn _ _ Hcol) as (v1 & v2 & _ & _ & ->).
    rewrite Hclassify in Hnone. done.
  - exists set_types. split_and!; [done..|].
    intros feat v1 v2 Hv1 Hv2.
    destruct (Hall feat) as (values & t & Hcol & Ht & ->).
    { by apply elem_of_dom. }
    destruct (Hcolumn _ _ Hcol) as (v1' & v2' & ? & ? & ->).
    simplify_eq. by rewrite <- Ht, Hclassify.
Qed.

Lemma is_set_pair_witness :
  ∃ set_types, is_set [purple1; green2] = Return (Some set_types) ∧
               set_types !! "Color"%string = Some DIFFERENT ∧
               set_types !! "Shape"%string = Some SAME.
Proof.
  destruct (is_set_pair purple1 green2) as (set_types & Hset & _ & Hall);
    [reflexivity|].
  exists set_types. split; [done|]. split.
  - by apply (Hall "Color" "purple" "green")%string.
  - by apply (Hall "Shape" "square" "square")%string.
Defined.

(** X6. When a card of the group lacks a feature name of the first card,
    the group matcher never returns a dictionary: it either returns
    [False], because a column it looked at before did not classify, or it
    raises [KeyError]. *)
Theorem is_set_missing_feature (card0 card : Card.t) (group : list Card.t)
    (feat : string) :
  feat ∈ dom (Card.features card0) → card ∈ group →
  feat ∉ dom (Card.features card) →
  is_set (card0 :: group) = Return None ∨
  is_set (card0 :: group) = Raise KeyError.
Proof.
  intros Hfeat Hcard Hmissing. unfold is_set.
  apply (is_set_loop_missing _ _ _ feat).
  - by apply elem_of_get_feature_names, elem_of_dom.
  - eapply column_missing; [by right|]. by apply not_elem_of_dom.
Qed.

Lemma is_set_missing_feature_witness :
  is_set [purple1; Card.Card {["Color"%string := "red"%string]}]
  = Raise KeyError.
Proof.
  destruct (is_set_missing_feature purple1
              (Card.Card {["Color"%string := "red"%string]})
              [Card.Card {["Color"%string := "red"%string]}] "Shape"%string)
    as [Hfalse|Hraise]; [compute_done|by left|compute_done| |exact Hraise].
  exfalso. vm_compute in Hfalse. discriminate Hfalse.
Defined.

(** X7. The group matcher reads only the features that the first card
    names: two groups with the same first card whose other cards agree on
    those features get the same answer, whatever else the cards hold. *)
Theorem is_set_reads_first_card_features (card0 : Card.t)
    (group1 group2 : list Card.t) :
  Forall2 (λ c1 c2, ∀ feat, feat ∈ dom (Card.features card0) →
                            Card.features c1 !! feat = Card.features c2 !! feat)
          group1 group2 →
  is_set (card0 :: group1) = is_set (card0 :: group2).
Proof.
  intros Hagree. unfold is_set. apply is_set_loop_agree.
  intros feat Hfeat%elem_of_get_feature_names%elem_of_dom.
  apply column_agree. constructor; [done|].
  eapply Forall2_impl; [done|]. intros c1 c2 Hc. by apply Hc.
Qed.

Lemma is_set_reads_first_card_features_witness :
  is_set [Card.Card {["Color"%string := "red"%string]}; purple1] =
  is_set [Card.Card {["Color"%string := "red"%string]};
          Card.Card {["Color"%string := "purple"%string]}] ∧
  is_set [Card.Card {["Color"%string := "red"%string]}; purple1] =
  Return (Some {["Color"%string := DIFFERENT]}).
Proof.
  split; [|vm_compute; reflexivity].
  apply is_set_reads_first_card_features.
  repeat constructor. intros feat Hfeat.
  simpl in Hfeat. rewrite dom_singleton_L in Hfeat.
  apply elem_of_singleton in Hfeat.
  subst feat. vm_compute. reflexivity.
Defined.

(** X8. On a group whose first card has no feature the group matcher
    returns the empty dictionary, which counts as false where [solve]
    tests it: such a group is never reported as a match. *)
Theorem is_set_no_features (card0 : Card.t) (group : list Card.t) :
  Card.features card0 = ∅ →
  is_set (card0 :: group) = Return (Some ∅) ∧
  truthy (Some ∅) = false ∧
  is_match (card0 :: group) = false.
Proof.
  intros Hempty.
  assert (is_set (card0 :: group) = Return (Some ∅)) as Hset.
  { unfold is_set, Card.get_feature_names.
    by rewrite Hempty, map_to_list_empty. }
  split_and!; [done|done|]. unfold is_match. by rewrite Hset.
Qed.

Lemma is_set_no_features_witness :
  is_set [Card.Card ∅; Card.Card ∅; Card.Card ∅] = Return (Some ∅) ∧
  is_match [Card.Card ∅; Card.Card ∅; Card.Card ∅] = false.
Proof.
  destruct (is_set_no_features (Card.Card ∅) [Card.Card ∅; Card.Card ∅])
    as (Hset & _ & Hmatch); [reflexivity|].
  by split.
Defined.

(** ** The combination generator over any items *)

Lemma generate_card_combos_drop (cards : list Card.t) (j a n : nat) :
  length cards - a = j →
  CardDeck.generate_card_combos (drop a cards) n =
  cards_at cards <$> CardDeck.generate_card_combos (seq a j) n.
Proof.
  revert a n. induction j as [|j IH]; intros a n Hlen.
  - rewrite drop_ge by lia. by destruct n.
  - destruct (lookup_lt_is_Some_2 cards a) as [card Hcard]; [lia|].
    rewrite (drop_S _ _ _ Hcard). cbn [seq]. destruct n as [|n]; [done|].
    rewrite !generate_card_combos_cons, fmap_app, <- list_fmap_compose.
    rewrite !IH by lia. rewrite <- list_fmap_compose. f_equal.
    apply list_fmap_ext. intros _ combo _. unfold cards_at. simpl.
    by rewrite Hcard.
Qed.

Lemma generate_card_combos_NoDup_aux {A} (items : list A) n :
  NoDup items → NoDup (CardDeck.generate_card_combos items n).
Proof.
  revert n. induction items as [|x items IH]; intros [|n] Hnodup.
  - apply NoDup_singleton.
  - constructor.
  - rewrite generate_card_combos_0. apply NoDup_singleton.
  - apply NoDup_cons in Hnodup as [Hx Hnodup].
    rewrite generate_card_combos_cons. apply NoDup_app. split_and!.
    + apply NoDup_fmap; [|by apply IH]. by intros ?? [=].
    + intros combo (combo' & -> & _)%list_elem_of_fmap
        [_ Hsub]%generate_card_combos_sublist.
      apply Hx. eapply (sublist_submseteq) in Hsub.
      eapply elem_of_submseteq; [|done]. by left.
    + by apply IH.
Qed.

(** X9. Over any sequence of items, the generator yields exactly the
    subsequences of the requested length: every selection keeps the order
    of the items, and every subsequence of that length is yielded. *)
Theorem generate_card_combos_subsequences {A} (items : list A) (n : nat)
    (combo : list A) :
  combo ∈ CardDeck.generate_card_combos items n ↔
  length combo = n ∧ combo `sublist_of` items.
Proof.
  split; [apply generate_card_combos_sublist|].
  intros [<- Hsub]. by apply sublist_generate_card_combos.
Qed.

(** X10. The generator follows the rule of Pascal's triangle, in this
    order: the selections that take the first item, each being that item
    before a smaller selection of the rest, and then the selections of the
    rest alone.  Size zero yields the empty selection alone, and no item
    yields nothing for a positive size. *)
Theorem generate_card_combos_recursion {A} (x : A) (items : list A) (n : nat) :
  CardDeck.generate_card_combos items 0 = [[]] ∧
  CardDeck.generate_card_combos (@nil A) (S n) = [] ∧
  CardDeck.generate_card_combos (x :: items) (S n) =
    ((x ::.) <$> CardDeck.generate_card_combos items n) ++
    CardDeck.generate_card_combos items (S n).
Proof.
  split_and!.
  - apply generate_card_combos_0.
  - reflexivity.
  - apply generate_card_combos_cons.
Qed.

(** X11. Over items that are pairwise distinct no selection is yielded
    twice. *)
Theorem generate_card_combos_NoDup {A} (items : list A) (n : nat) :
  NoDup items → NoDup (CardDeck.generate_card_combos items n).
Proof. apply generate_card_combos_NoDup_aux. Qed.

Lemma generate_card_combos_NoDup_witness :
  NoDup (CardDeck.generate_card_combos [purple1; green2; red3] 2).
Proof.
  apply generate_card_combos_NoDup.
  apply (NoDup_fmap_1 Card.features). compute_done.
Defined.

(** X12. For any items, the number of selections is the binomial
    coefficient of the number of items and the size; a size above the
    number of items yields nothing. *)
Theorem generate_card_combos_count {A} (items : list A) (n : nat) :
  length (CardDeck.generate_card_combos items n) = choose (length items) n ∧
  (length items < n → CardDeck.generate_card_combos items n = []).
Proof.
  split; [apply length_generate_card_combos|apply generate_card_combos_gt].
Qed.

(** X13. On a deck with a list of cards, [card_combinations] yields the
    groups of cards at the positions that [card_position_combos] yields,
    in the same order: the two generators go through the deck alike. *)
Theorem card_combinations_by_position (self : CardDeck.t)
    (cards : list Card.t) (setsize : nat) :
  CardDeck.cards self = Some cards →
  ∃ combos,
    CardDeck.card_position_combos self setsize = Return combos ∧
    CardDeck.card_combinations self setsize =
      Return (cards_at cards <$> combos).
Proof.
  intros Hcards. eexists. split.
  - unfold CardDeck.card_position_combos. rewrite Hcards. reflexivity.
  - unfold CardDeck.card_combinations, CardDeck.range. rewrite Hcards.
    f_equal. rewrite <- (generate_card_combos_drop cards _ 0) by lia. done.
Qed.

Lemma card_combinations_by_position_witness :
  CardDeck.card_combinations game_deck 2 =
  Return [[purple1; green2]; [purple1; red3]; [green2; red3]].
Proof.
  destruct (card_combinations_by_position game_deck [purple1; green2; red3] 2)
    as (combos & Hpositions & ->); [reflexivity|].
  injection Hpositions as <-. reflexivity.
Defined.

(** ** Loading a deck *)

Lemma add_values_dom (items : list (string * string))
    (fv fv' : gmap string (gset string)) :
  CardDeck.add_values items fv = Return fv' → dom fv' = dom fv.
Proof.
  revert fv. induction items as [|[feat value] items IH]; intros fv; simpl.
  - by intros [= ->].
  - unfold getitem. destruct (fv !! feat) as [seen|] eqn:Hseen; [simpl|done].
    case_decide; [|by apply IH]. intros ->%IH.
    rewrite dom_insert_L. apply elem_of_dom_2 in Hseen. set_solver.
Qed.

(** Adding the values of a card adds nothing else. *)
Lemma add_values_only (items : list (string * string))
    (fv fv' : gmap string (gset string)) feat seen' value :
  CardDeck.add_values items fv = Return fv' →
  fv' !! feat = Some seen' → value ∈ seen' →
  (∃ seen, fv !! feat = Some seen ∧ value ∈ seen) ∨ (feat, value) ∈ items.
Proof.
  revert fv. induction items as [|[feat0 value0] items IH]; intros fv; simpl.
  - intros [= ->] ??. left. eauto.
  - unfold getitem. destruct (fv !! feat0) as [seen0|] eqn:Hseen0; [simpl|done].
    case_decide.
    + intros Hadd Hseen' Hvalue.
      destruct (IH _ Hadd Hseen' Hvalue) as [(seen & Hseen & Hin)|?];
        [|right; by right].
      destruct (decide (feat = feat0)) as [->|Hne].
      * rewrite lookup_insert_eq in Hseen. injection Hseen as <-.
        apply elem_of_union in Hin as [?|Hnew]; [left; eauto|].
        apply elem_of_singleton in Hnew as ->. right. by left.
      * rewrite lookup_insert_ne in Hseen by done. left. eauto.
    + intros Hadd Hseen' Hvalue.
      destruct (IH _ Hadd Hseen' Hvalue) as [?|?]; [by left|right; by right].
Qed.

Lemma reset_values_lookup (names : list string)
    (fv : gmap string (gset string)) feat :
  feat ∈ names →
  foldl (λ fv feat, <[feat := ∅]> fv) fv names !! feat = Some ∅.
Proof.
  revert fv. induction names as [|name names IH]; intros fv;
    [by intros ?%elem_of_nil|].
  simpl. destruct (decide (feat ∈ names)) as [?|Hnin]; [by intros _; apply IH|].
  intros [->|?]%elem_of_cons; [|done].
  clear IH. revert fv. induction names as [|name' names IH]; intros fv; simpl.
  - by rewrite lookup_insert_eq.
  - apply not_elem_of_cons in Hnin as [Hne Hnin].
    rewrite insert_insert_ne by done. by apply IH.
Qed.

Lemma load_line_values_exact (self self' : CardDeck.t) (line : string) :
  loading self → values_exact self →
  CardDeck.load_line self line = Return self' → values_exact self'.
Proof.
  intros [[cards Hcards] [comments Hcomments] Hnone Hschema] Hexact.
  unfold CardDeck.load_line. destruct (_ || _).
  { rewrite Hcomments. simpl. by intros [= <-]. }
  destruct (CardDeck.features self) as [[|name names]|] eqn:Hnames.
  - by destruct (Hschema [] eq_refl) as [? _].
  - case_decide as Hlen; [by intros [= <-]|].
    rewrite Hcards. cbn [CardDeck.append py_bind].
    destruct (CardDeck.add_values _ _) as [fv'|] eqn:Hadd; [simpl|done].
    intros [= <-] names' feat seen' value [= <-] Hfeat Hseen' Hvalue.
    simpl in *.
    destruct (add_values_only _ _ _ _ _ _ Hadd Hseen' Hvalue)
      as [(seen & Hseen & Hin)|Hnew%elem_of_map_to_list].
    + destruct (Hexact _ _ _ _ Hnames Hfeat Hseen Hin)
        as (cards0 & card & Hcards0 & Hcard & Hv).
      rewrite Hcards in Hcards0. injection Hcards0 as <-.
      eexists _, card. split_and!; [done| |done].
      apply elem_of_app. by left.
    + eexists _, (Card.Card (CardDeck.dict_zip _ _)).
      split_and!; [done| |exact Hnew].
      apply elem_of_app. right. by left.
  - intros [= <-] names' feat seen value [= <-] Hfeat Hseen Hvalue.
    simpl in *. rewrite reset_values_lookup in Hseen by done.
    injection Hseen as <-. by apply elem_of_empty in Hvalue.
Qed.

Lemma load_lines_values_exact (self self' : CardDeck.t) (lines : list string) :
  loading self → values_recorded self → values_exact self →
  CardDeck.load_lines self lines = Return self' → values_exact self'.
Proof.
  revert self. induction lines as [|line lines IH];
    intros self Hloading Hrecorded Hexact; simpl.
  - by intros [= <-].
  - destruct (load_line_loading self line Hloading Hrecorded)
      as (self1 & Hline & ? & ?).
    rewrite Hline. simpl. intros Hload.
    apply (IH self1); [assumption|assumption| |assumption].
    exact (load_line_values_exact self self1 line Hloading Hexact Hline).
Qed.

(** X14. [load_file] never raises on the lines of a file, and afterwards
    the set of distinct values that the deck keeps for a feature name of
    the schema is exactly the set of the values that the cards of the deck
    have for it. *)
Theorem load_file_feature_values (self : CardDeck.t) (lines : list string) :
  ∃ self' cards,
    CardDeck.load_file self lines = Return self' ∧
    CardDeck.cards self' = Some cards ∧
    ∀ names feat value,
      CardDeck.features self' = Some names → feat ∈ names →
      ((∃ seen, CardDeck.feature_values self' !! feat = Some seen ∧
                value ∈ seen) ↔
       ∃ card, card ∈ cards ∧ Card.features card !! feat = Some value).
Proof.
  destruct (load_file_values_recorded self lines)
    as (self' & Hload & Hloading & Hrecorded).
  pose proof Hloading as [[cards Hcards] _ _ _].
  exists self', cards. split_and!; [done..|].
  intros names feat value Hnames Hfeat. split.
  - intros (seen & Hseen & Hvalue).
    assert (values_exact self') as Hexact.
    { eapply load_lines_values_exact; [| | |exact Hload].
      - split; simpl; eauto; done.
      - intros ???? [= <-]. by intros ?%elem_of_nil.
      - by intros ?????. }
    destruct (Hexact _ _ _ _ Hnames Hfeat Hseen Hvalue)
      as (cards' & card & Hcards' & ? & ?).
    rewrite Hcards in Hcards'. injection Hcards' as <-. eauto.
  - intros (card & Hcard & Hvalue). by eapply Hrecorded.
Qed.

Lemma load_line_keeps (self self' : CardDeck.t) (line : string) :
  CardDeck.load_line self line = Return self' →
  CardDeck.sets self' = CardDeck.sets self ∧
  dom (CardDeck.feature_values self) ⊆ dom (CardDeck.feature_values self').
Proof.
  unfold CardDeck.load_line. destruct (_ || _).
  { destruct (CardDeck.append _ _); by intros [= <-]. }
  destruct (CardDeck.features self) as [[|name names]|].
  - intros [= <-]. simpl. split; [done|]. rewrite reset_values_dom. set_solver.
  - case_decide; [by intros [= <-]|].
    destruct (CardDeck.append _ _); [simpl|done].
    destruct (CardDeck.add_values _ _) as [fv'|] eqn:Hadd; [simpl|done].
    intros [= <-]. simpl. split; [done|].
    by rewrite (add_values_dom _ _ _ Hadd).
  - intros [= <-]. simpl. split; [done|]. rewrite reset_values_dom. set_solver.
Qed.

Lemma load_lines_keeps (self self' : CardDeck.t) (lines : list string) :
  CardDeck.load_lines self lines = Return self' →
  CardDeck.sets self' = CardDeck.sets self ∧
  dom (CardDeck.feature_values self) ⊆ dom (CardDeck.feature_values self').
Proof.
  revert self. induction lines as [|line lines IH]; intros self; simpl.
  - by intros [= <-].
  - destruct (CardDeck.load_line self line) as [self1|] eqn:Hline; [simpl|done].
    intros [Hsets Hdom]%IH. apply load_line_keeps in Hline as [Hsets1 Hdom1].
    split; [congruence|set_solver].
Qed.

(** X15. After [load_file] all cards of the deck share the schema of the
    deck: a deck without schema has no card, and otherwise the schema is
    not empty, every card is compatible with it, and the cards are
    pairwise compatible. *)
Theorem load_file_cards_share_schema (self : CardDeck.t) (lines : list string) :
  ∃ self' cards,
    CardDeck.load_file self lines = Return self' ∧
    CardDeck.cards self' = Some cards ∧
    (CardDeck.features self' = None → cards = []) ∧
    (∀ names, CardDeck.features self' = Some names →
       names ≠ [] ∧
       (∀ card, card ∈ cards →
                Card.compatible card (Card.names names) = true) ∧
       pairwise_compatible cards).
Proof.
  destruct (load_file_values_recorded self lines)
    as (self' & Hload & [[cards Hcards] _ Hnone Hschema] & _).
  exists self', cards. split_and!; [done..| |].
  - intros Hnames. specialize (Hnone Hnames). congruence.
  - intros names Hnames. destruct (Hschema names Hnames) as (Hne & _ & Hdoms).
    split_and!; [done| |].
    + intros card Hcard. apply compatible_true. simpl. by eapply Hdoms.
    + eapply same_names_pairwise_compatible. intros card Hcard.
      by eapply Hdoms.
Qed.

(** X16. [load_file] replaces the cards, the schema and the comments of
    the deck but keeps its result list as it was, and it never drops a
    feature name from the per-feature sets: what an earlier file or an
    earlier [solve] left there stays. *)
Theorem load_file_keeps_results (self self' : CardDeck.t) (lines : list string) :
  CardDeck.load_file self lines = Return self' →
  CardDeck.sets self' = CardDeck.sets self ∧
  dom (CardDeck.feature_values self) ⊆ dom (CardDeck.feature_values self') ∧
  CardDeck.load_file
    {| CardDeck.features := None; CardDeck.cards := None;
       CardDeck.sets := CardDeck.sets self;
       CardDeck.feature_values := CardDeck.feature_values self;
       CardDeck.comments := None |} lines = Return self'.
Proof.
  intros Hload. split_and!; [| |done].
  - by apply load_lines_keeps in Hload as [? _].
  - by apply load_lines_keeps in Hload as [_ ?].
Qed.

Lemma load_file_keeps_results_witness :
  ∃ reloaded,
    CardDeck.load_file solved_deck ["Size"%string] = Return reloaded ∧
    CardDeck.sets reloaded =
      [CardSet.__init__ [purple1; green2; red3] (Some [0; 1; 2])] ∧
    "Color"%string ∈ dom (CardDeck.feature_values reloaded).
Proof.
  destruct (load_file_values_recorded solved_deck ["Size"%string])
    as (reloaded & Hload & _).
  destruct (load_file_keeps_results _ _ _ Hload) as (Hsets & Hdom & _).
  exists reloaded. split; [exact Hload|]. split; [exact Hsets|].
  apply Hdom, game_deck_Color.
Defined.

(** ** Adding cards and solving *)

Lemma column_length feat (cards : list Card.t) values :
  column feat cards = Return values → length values = length cards.
Proof.
  unfold column. revert values.
  induction cards as [|card cards IH]; intros values; simpl.
  - by intros [= <-].
  - unfold getitem at 1. destruct (Card.features card !! feat); [simpl|done].
    destruct (comprehension _ cards) as [values'|]; [simpl|done].
    intros [= <-]. simpl. by rewrite (IH values').
Qed.

Lemma is_feature_a_set_small (values : list string) :
  length values ≤ 2 → is_feature_a_set values ≠ None.
Proof.
  intros Hlen Hnone. apply is_feature_a_set_false in Hnone as [Hne1 Hnek].
  destruct values as [|a [|b [|c values]]]; simpl in Hlen; try lia.
  - by rewrite py_set_nil, size_empty in Hnek.
  - apply Hne1, size_py_set_1. exists a. split; [done|]. by repeat constructor.
  - destruct (decide (a = b)) as [->|Hab].
    + apply Hne1, size_py_set_1. exists b. split; [done|].
      by repeat constructor.
    + apply Hnek, size_py_set_NoDup. repeat constructor; set_solver.
Qed.

(** One or two cards that share a non-empty schema are a match. *)
Lemma is_match_small (group : list Card.t) (names : gset string) :
  names ≠ ∅ →
  (∀ card, card ∈ group → dom (Card.features card) = names) →
  1 ≤ length group ≤ 2 → is_match group = true.
Proof.
  intros Hne Hdoms Hlen.
  pose proof (same_names_pairwise_compatible _ _ Hdoms) as Hcompat.
  destruct group as [|card0 group]; [simpl in Hlen; lia|].
  unfold is_match.
  destruct (is_set_cons card0 group Hcompat)
    as [(_ & feat & values & _ & Hcol & Hnone)|(set_types & -> & Hdom & _)].
  - apply column_length in Hcol.
    destruct (is_feature_a_set_small values); [lia|done].
  - simpl. rewrite bool_decide_eq_false_2; [done|].
    intros ->. rewrite dom_empty_L in Hdom.
    rewrite (Hdoms card0) in Hdom; [done|]. by left.
Qed.

Lemma matches_all (cards : list Card.t) (combos : list (list nat)) :
  (∀ combo, combo ∈ combos → is_match (cards_at cards combo) = true) →
  matches cards combos =
  (λ combo, CardSet.__init__ (cards_at cards combo) (Some combo)) <$> combos.
Proof.
  induction combos as [|combo combos IH]; intros Hall; [done|].
  unfold matches. cbn [omap list_omap]. rewrite (Hall combo) by left.
  fold (matches cards combos). rewrite IH; [done|].
  intros ??. apply Hall. by right.
Qed.

Lemma elem_of_matches (cards : list Card.t) (combos : list (list nat)) record :
  record ∈ matches cards combos ↔
  ∃ combo, combo ∈ combos ∧ is_match (cards_at cards combo) = true ∧
           record = CardSet.__init__ (cards_at cards combo) (Some combo).
Proof.
  unfold matches. rewrite list_elem_of_omap. split.
  - intros (combo & Hcombo & Hrecord). exists combo.
    destruct (is_match _); by simplify_eq.
  - intros (combo & Hcombo & Hmatch & ->). exists combo. by rewrite Hmatch.
Qed.

Lemma length_cards_at (cards : list Card.t) (combo : list nat) :
  Forall (λ position, position < length cards) combo →
  length (cards_at cards combo) = length combo.
Proof.
  induction 1 as [|position combo Hlt _ IH]; [done|].
  apply lookup_lt_is_Some_2 in Hlt as [card Hcard].
  unfold cards_at. simpl. rewrite Hcard. simpl. f_equal. exact IH.
Qed.

(** X17. On a deck that has a non-empty schema and a list of cards,
    [add_card] never raises: it returns whether the card is compatible
    with the schema, appends a compatible card at the end of the deck and
    changes nothing else, and leaves the deck as it was for any other
    card. *)
Theorem add_card_on_schema (self : CardDeck.t) (card : Card.t)
    (names : list string) (cards : list Card.t) :
  CardDeck.features self = Some names → names ≠ [] →
  CardDeck.cards self = Some cards →
  ∃ self',
    CardDeck.add_card self card =
      Return (Card.compatible card (Card.names names), self') ∧
    (Card.compatible card (Card.names names) = true →
     CardDeck.cards self' = Some (cards ++ [card]) ∧
     CardDeck.features self' = Some names ∧
     CardDeck.sets self' = CardDeck.sets self ∧
     CardDeck.feature_values self' = CardDeck.feature_values self ∧
     CardDeck.comments self' = CardDeck.comments self) ∧
    (Card.compatible card (Card.names names) = false → self' = self).
Proof.
  intros Hnames Hne Hcards.
  destruct (add_card_with_schema self card names cards Hnames Hne Hcards)
    as (self' & ? & ? & ? & ? & ? & Htrue & ?).
  exists self'. split_and!; [done| |done].
  intros Hcompat. split_and!; auto.
Qed.

Lemma add_card_on_schema_witness :
  ∃ self',
    CardDeck.add_card game_deck blue4 = Return (true, self') ∧
    CardDeck.cards self' = Some [purple1; green2; red3; blue4].
Proof.
  destruct (add_card_on_schema game_deck blue4
              ["Color"; "Number"; "Shape"; "Fill"]%string
              [purple1; green2; red3])
    as (self' & Hadd & Htrue & _); [reflexivity|done|reflexivity|].
  rewrite blue4_compatible in Hadd.
  destruct (Htrue blue4_compatible) as [Hcards _].
  exists self'. split; [exact Hadd|exact Hcards].
Defined.

(** X18. Whatever sequence of constructor, [load_file], [add_card] and
    [solve] calls produced a deck, its cards share its schema: either the
    deck has no schema and no card, or its schema is not empty, every card
    has exactly the feature names of the schema, and any two cards are
    compatible. *)
Theorem reachable_cards_share_schema (self : CardDeck.t) :
  reachable self →
  (CardDeck.features self = None ∧
   (CardDeck.cards self = None ∨ CardDeck.cards self = Some [])) ∨
  (∃ names cards,
     CardDeck.features self = Some names ∧ names ≠ [] ∧
     CardDeck.cards self = Some cards ∧
     (∀ card, card ∈ cards →
              Card.compatible card (Card.names names) = true) ∧
     pairwise_compatible cards).
Proof.
  intros [[Hnames Hcards]|[[cards Hcards] _ Hnone Hschema]]%reachable_loading.
  - left. split; [done|]. by left.
  - destruct (CardDeck.features self) as [names|] eqn:Hnames.
    + right. destruct (Hschema names eq_refl) as (Hne & _ & Hdoms).
      exists names, cards. split_and!; [done..| |].
      * intros card Hcard. apply compatible_true. simpl. by eapply Hdoms.
      * eapply same_names_pairwise_compatible. intros card Hcard.
        by eapply Hdoms.
    + left. split; [done|]. right. by apply Hnone.
Qed.

Lemma reachable_cards_share_schema_witness :
  ∃ cards, CardDeck.cards game_deck = Some cards ∧ pairwise_compatible cards.
Proof.
  destruct (reachable_cards_share_schema game_deck reachable_game_deck)
    as [[Hnone _]|(names & cards & _ & _ & Hcards & _ & Hcompat)].
  - discriminate Hnone.
  - exists cards. by split.
Defined.

(** X19. On a deck that the constructor and the methods produced and that
    has a schema, [solve] never raises.  Whatever result list the deck held
    before, the call returns, and stores in the deck, the records
    [CardSet(cards, combo)] of exactly the position selections whose cards
    the group matcher accepts, in the order of the generator; nothing else
    of the deck changes. *)
Theorem solve_returns_matches (self : CardDeck.t) (names : list string)
    (setsize : nat) :
  reachable self → CardDeck.features self = Some names →
  ∃ cards found,
    CardDeck.cards self = Some cards ∧
    CardDeck.solve self setsize = Return (found, CardDeck.set_sets self found) ∧
    found = matches cards (CardDeck.generate_card_combos
                             (CardDeck.range (length cards)) setsize) ∧
    ∀ record,
      record ∈ found ↔
      ∃ combo,
        combo ∈ CardDeck.generate_card_combos
                  (CardDeck.range (length cards)) setsize ∧
        is_match (cards_at cards combo) = true ∧
        record = CardSet.__init__ (cards_at cards combo) (Some combo).
Proof.
  intros Hreach Hnames.
  destruct (solve_reachable self names setsize Hreach Hnames)
    as (cards & Hcards & Hsolve).
  eexists cards, _. split_and!; [done|exact Hsolve|done|].
  intros record. apply elem_of_matches.
Qed.

Lemma solve_returns_matches_witness :
  ∃ found,
    CardDeck.solve game_deck 3 =
      Return (found, CardDeck.set_sets game_deck found) ∧
    found = matches [purple1; green2; red3]
              (CardDeck.generate_card_combos (CardDeck.range 3) 3).
Proof.
  destruct (solve_returns_matches game_deck
              ["Color"; "Number"; "Shape"; "Fill"]%string 3)
    as (cards & found & Hcards & Hsolve & Hfound & _);
    [exact reachable_game_deck|reflexivity|].
  injection Hcards as <-. exists found. by split.
Defined.

(** X20. Every record that [solve] returns on such a deck holds a
    selection of the requested size in strictly ascending positions of the
    deck together with the cards at those positions, and passes
    [check_set]: the group matcher returns a non-empty dictionary on its
    cards. *)
Theorem solve_records (self self' : CardDeck.t) (names : list string)
    (setsize : nat) (found : list CardSet.t) (record : CardSet.t) :
  reachable self → CardDeck.features self = Some names →
  CardDeck.solve self setsize = Return (found, self') →
  record ∈ found →
  ∃ cards combo set_types,
    CardDeck.cards self = Some cards ∧
    CardSet.card_positions record = Some combo ∧
    length combo = setsize ∧ ascending_below (length cards) combo ∧
    CardSet.cards record = cards_at cards combo ∧
    length (CardSet.cards record) = setsize ∧
    CardSet.check_set record = Return (Some set_types) ∧ set_types ≠ ∅.
Proof.
  intros Hreach Hnames Hsolve Hrecord.
  destruct (solve_reachable self names setsize Hreach Hnames)
    as (cards & Hcards & Hsolve').
  rewrite Hsolve' in Hsolve. injection Hsolve as <- _.
  apply elem_of_matches in Hrecord as (combo & Hcombo & Hmatch & ->).
  apply generate_card_combos_sublist in Hcombo as [Hlen Hsub].
  assert (Forall (λ position, position < length cards) combo) as Hbelow.
  { apply Forall_forall. intros position Hposition.
    pose proof (sublist_elem_of _ _ _ Hsub Hposition) as Hin.
    apply elem_of_seq in Hin. lia. }
  unfold is_match in Hmatch. unfold CardSet.check_set. simpl.
  destruct (is_set (cards_at cards combo)) as [[set_types|]|]; try done.
  exists cards, combo, set_types. split_and!; try done.
  - split; [|done]. eapply sublist_ascending; [done|]. apply seq_ascending.
  - by rewrite length_cards_at.
  - intros ->. done.
Qed.

Lemma solve_records_witness :
  ∃ found self' record,
    CardDeck.solve game_deck 3 = Return (found, self') ∧ record ∈ found ∧
    CardSet.card_positions record = Some [0; 1; 2] ∧
    ∃ set_types, CardSet.check_set record = Return (Some set_types).
Proof.
  assert (CardDeck.solve game_deck 3 =
          Return ([CardSet.__init__ [purple1; green2; red3] (Some [0; 1; 2])],
                  solved_deck)) as Hsolve by (vm_compute; reflexivity).
  destruct (solve_records game_deck solved_deck
              ["Color"; "Number"; "Shape"; "Fill"]%string 3 _
              (CardSet.__init__ [purple1; green2; red3] (Some [0; 1; 2]))
              reachable_game_deck eq_refl Hsolve)
    as (cards & combo & set_types & _ & Hpositions & _ & _ & _ & _ & Hcheck & _);
    [by left|].
  eexists _, _, _. split; [exact Hsolve|]. split; [by left|].
  split; [reflexivity|]. by exists set_types.
Defined.

(** X21. On a deck without schema, such as one built without a file or
    loaded from a file that has no line of feature names, both [solve], for
    every size, and [add_card], for every card, raise [TypeError]. *)
Theorem no_schema_raises (self : CardDeck.t) (card : Card.t) (setsize : nat) :
  CardDeck.features self = None →
  CardDeck.solve self setsize = Raise TypeError ∧
  CardDeck.add_card self card = Raise TypeError.
Proof.
  intros Hnone. unfold CardDeck.solve, CardDeck.add_card. simpl.
  by rewrite Hnone.
Qed.

Lemma no_schema_raises_witness :
  ∃ self,
    CardDeck.__init__ (Some ["# only a comment"; ""]%string) = Return self ∧
    CardDeck.cards self = Some [] ∧
    CardDeck.solve self 3 = Raise TypeError ∧
    CardDeck.add_card self purple1 = Raise TypeError.
Proof.
  eexists. split; [vm_compute; reflexivity|]. split; [reflexivity|].
  apply no_schema_raises. reflexivity.
Defined.

(** X22. On a deck that the constructor and the methods produced and that
    has a schema, every single card and every pair of cards is a match:
    [solve(1)] returns one record per card and [solve(2)] one record per
    pair of positions, in the order of the generator. *)
Theorem solve_singles_and_pairs (self : CardDeck.t) (names : list string)
    (setsize : nat) :
  reachable self → CardDeck.features self = Some names →
  1 ≤ setsize ≤ 2 →
  ∃ cards found self',
    CardDeck.cards self = Some cards ∧
    CardDeck.solve self setsize = Return (found, self') ∧
    found = (λ combo, CardSet.__init__ (cards_at cards combo) (Some combo))
              <$> CardDeck.generate_card_combos
                    (CardDeck.range (length cards)) setsize ∧
    length found = choose (length cards) setsize.
Proof.
  intros Hreach Hnames Hsize.
  destruct (solve_reachable self names setsize Hreach Hnames)
    as (cards & Hcards & Hsolve).
  apply reachable_loading in Hreach as [[? _]|[_ _ _ Hschema]]; [congruence|].
  destruct (Hschema names Hnames) as (Hne & _ & Hdoms).
  eexists cards, _, _. split_and!; [done|exact Hsolve| |].
  - apply matches_all. intros combo [Hlen Hsub]%generate_card_combos_sublist.
    apply (is_match_small _ (list_to_set names)).
    + destruct names as [|name names']; [done|].
      rewrite list_to_set_cons. set_solver.
    + intros card Hcard%cards_at_elem_of. by eapply Hdoms.
    + rewrite length_cards_at; [lia|].
      apply Forall_forall. intros position Hposition.
      pose proof (sublist_elem_of _ _ _ Hsub Hposition) as Hin.
      apply elem_of_seq in Hin. lia.
  - rewrite matches_all.
    + rewrite length_fmap, length_generate_card_combos.
      unfold CardDeck.range. by rewrite length_seq.
    + intros combo [Hlen Hsub]%generate_card_combos_sublist.
      apply (is_match_small _ (list_to_set names)).
      * destruct names as [|name names']; [done|].
        rewrite list_to_set_cons. set_solver.
      * intros card Hcard%cards_at_elem_of. by eapply Hdoms.
      * rewrite length_cards_at; [lia|].
        apply Forall_forall. intros position Hposition.
        pose proof (sublist_elem_of _ _ _ Hsub Hposition) as Hin.
        apply elem_of_seq in Hin. lia.
Qed.

Lemma solve_singles_and_pairs_witness :
  ∃ found self',
    CardDeck.solve game_deck 2 = Return (found, self') ∧ length found = 3.
Proof.
  destruct (solve_singles_and_pairs game_deck
              ["Color"; "Number"; "Shape"; "Fill"]%string 2)
    as (cards & found & self' & Hcards & Hsolve & _ & Hlength);
    [exact reachable_game_deck|reflexivity|lia|].
  injection Hcards as <-. exists found, self'. by split.
Defined.

(** ** Text of the card file *)

Section text.
Implicit Types (s t u : string) (a sep : ascii) (fields : list string).

Lemma append_String a s t : (String a s +:+ t)%string = String a (s +:+ t).
Proof. reflexivity. Qed.

Lemma append_empty_l t : ("" +:+ t)%string = t.
Proof. reflexivity. Qed.








Lemma split_free sep s : has_char sep s = false → split sep s = [s].
Proof.
  induction s as [|a s IH]; [done|]. simpl.
  intros [Ha Hs]%orb_false_elim. by rewrite Ha, IH.
Qed.

Lemma split_app sep s t :
  has_char sep s = false →
  split sep (s +:+ String sep t) = s :: split sep t.
Proof.
  induction s as [|a s IH].
  - intros _. rewrite append_empty_l. simpl. by rewrite Ascii.eqb_refl.
  - cbn [has_char]. intros [Ha Hs]%orb_false_elim.
    rewrite append_String. cbn [split]. by rewrite Ha, IH.
Qed.

(** Splitting what was joined gives the fields back. *)
Lemma split_concat sep fields :
  fields ≠ [] → Forall (λ field, has_char sep field = false) fields →
  split sep (String.concat (String sep "") fields) = fields.
Proof.
  intros Hne Hfree. induction Hfree as [|field fields Hfield Hfree IH]; [done|].
  destruct fields as [|field' fields]; [by apply split_free|].
  change (String.concat (String sep "") (field :: field' :: fields))
    with (field +:+ String sep (String.concat (String sep "") (field' :: fields))).
  rewrite split_app by done. f_equal. by apply IH.
Qed.




End text.







(** ** The positions of a record as text *)

Section positions_text.
Implicit Types (s t : string) (c : ascii) (positions : list nat).

Lemma has_char_app c s t :
  has_char c (s +:+ t) = has_char c s || has_char c t.
Proof.
  induction s as [|a s IH]; [done|].
  rewrite append_String. simpl. by rewrite IH, orb_assoc.
Qed.

Lemma pretty_N_char_digit (d : N) c :
  c = "-"%char ∨ c = " "%char → Ascii.eqb (pretty_N_char d) c = false.
Proof. intros [->| ->]; unfold pretty_N_char; by repeat case_match. Qed.

(** The digits of a number hold neither a dash nor a space. *)
Lemma pretty_N_go_has_char (x : N) s c :
  c = "-"%char ∨ c = " "%char →
  has_char c (pretty_N_go x s) = has_char c s.
Proof.
  intros Hc. revert s. induction (N.lt_wf_0 x) as [x _ IH]; intros s.
  destruct (decide (x = 0)%N) as [->|Hx]; [by rewrite pretty_N_go_0|].
  rewrite pretty_N_go_step by lia. rewrite IH by (apply N.div_lt; lia).
  simpl. by rewrite pretty_N_char_digit.
Qed.

Lemma str_has_char (position : nat) c :
  c = "-"%char ∨ c = " "%char → has_char c (CardSet.str position) = false.
Proof.
  intros Hc. unfold CardSet.str, pretty, pretty_nat, pretty, pretty_N.
  case_decide; [by destruct Hc as [->| ->]|].
  by rewrite pretty_N_go_has_char.
Qed.

Lemma concat_dash_has_space (fields : list string) :
  Forall (λ field, has_char " " field = false) fields →
  has_char " " (String.concat "-" fields) = false.
Proof.
  induction 1 as [|field fields Hfield _ IH]; [done|].
  destruct fields as [|field' fields]; [done|].
  change (String.concat "-" (field :: field' :: fields))
    with (field +:+ String "-" (String.concat "-" (field' :: fields))).
  rewrite has_char_app, Hfield. simpl. exact IH.
Qed.

Lemma positions_string_cons (record : CardSet.t) positions :
  CardSet.card_positions record = Some positions → positions ≠ [] →
  CardSet.positions_string record =
  String.concat "-" (CardSet.str <$> positions).
Proof.
  intros Hpositions Hne. unfold CardSet.positions_string.
  rewrite Hpositions. destruct positions; [done|reflexivity].
Qed.

Lemma split_positions_string (record : CardSet.t) positions :
  CardSet.card_positions record = Some positions → positions ≠ [] →
  split "-" (CardSet.positions_string record) = CardSet.str <$> positions.
Proof.
  intros Hpositions Hne. rewrite (positions_string_cons _ positions) by done.
  apply (split_concat "-"%char).
  - by destruct positions.
  - apply Forall_fmap, Forall_forall. intros position _. simpl.
    apply str_has_char. by left.
Qed.

End positions_text.

(** X24. The text of the positions of a record reads back: for a record
    with at least one position, splitting [positions_string] at the dashes
    gives the decimal digits of each position in order, and the text is
    never the one that stands for a record without positions. *)
Theorem positions_string_reads_back (record : CardSet.t) (positions : list nat) :
  CardSet.card_positions record = Some positions → positions ≠ [] →
  split "-" (CardSet.positions_string record) = CardSet.str <$> positions ∧
  CardSet.positions_string record ≠ "No positions available"%string.
Proof.
  intros Hpositions Hne. split; [by apply split_positions_string|].
  rewrite (positions_string_cons _ positions) by done. intros Heq.
  assert (has_char " " (String.concat "-" (CardSet.str <$> positions)) = false)
    as Hspace.
  { apply concat_dash_has_space, Forall_fmap, Forall_forall.
    intros position _. simpl. apply str_has_char. by right. }
  by rewrite Heq in Hspace.
Qed.

Lemma positions_string_reads_back_witness :
  CardSet.positions_string (CardSet.__init__ [] (Some [0; 3; 15])) =
    "0-3-15"%string ∧
  split "-" (CardSet.positions_string (CardSet.__init__ [] (Some [0; 3; 15])))
    = ["0"; "3"; "15"]%string.
Proof.
  split; [vm_compute; reflexivity|].
  destruct (positions_string_reads_back
              (CardSet.__init__ [] (Some [0; 3; 15])) [0; 3; 15])
    as [Hsplit _]; [reflexivity|done|].
  rewrite Hsplit. vm_compute. reflexivity.
Defined.

Lemma positions_string_inj (record1 record2 : CardSet.t)
    (positions1 positions2 : list nat) :
  CardSet.card_positions record1 = Some positions1 → positions1 ≠ [] →
  CardSet.card_positions record2 = Some positions2 → positions2 ≠ [] →
  CardSet.positions_string record1 = CardSet.positions_string record2 →
  positions1 = positions2.
Proof.
  intros Hp1 Hne1 Hp2 Hne2 Heq.
  pose proof (split_positions_string _ _ Hp1 Hne1) as Hsplit1.
  pose proof (split_positions_string _ _ Hp2 Hne2) as Hsplit2.
  rewrite Heq, Hsplit2 in Hsplit1.
  eapply (inj (fmap CardSet.str)). done.
Qed.

(** X25. The text of the positions identifies the selection: two records
    that each have at least one position and the same [positions_string]
    have the same positions. *)
Theorem positions_string_fingerprint (record1 record2 : CardSet.t)
    (positions1 positions2 : list nat) :
  CardSet.card_positions record1 = Some positions1 → positions1 ≠ [] →
  CardSet.card_positions record2 = Some positions2 → positions2 ≠ [] →
  CardSet.positions_string record1 = CardSet.positions_string record2 →
  positions1 = positions2.
Proof. apply positions_string_inj. Qed.

Lemma positions_string_fingerprint_witness :
  [0; 1; 2] = [0; 1; 2] ∧
  CardSet.positions_string (CardSet.__init__ [] (Some [0; 1; 2])) =
  CardSet.positions_string
    (CardSet.__init__ [purple1; green2; red3] (Some [0; 1; 2])).
Proof.
  split; [|reflexivity].
  apply (positions_string_fingerprint
           (CardSet.__init__ [] (Some [0; 1; 2]))
           (CardSet.__init__ [purple1; green2; red3] (Some [0; 1; 2])));
    done.
Defined.

(** ** More on the group matcher and on [solve] *)

Lemma is_feature_a_set_perm (values values' : list string) :
  values ≡ₚ values' → is_feature_a_set values = is_feature_a_set values'.
Proof.
  intros Hperm. unfold is_feature_a_set, py_set.
  by rewrite (list_to_set_perm_L _ _ Hperm), (Permutation_length Hperm).
Qed.

Lemma column_perm feat (group group' : list Card.t) values :
  group ≡ₚ group' → column feat group = Return values →
  ∃ values', column feat group' = Return values' ∧ values ≡ₚ values'.
Proof.
  intros Hperm. revert values.
  induction Hperm as [|card group group' _ IH|c1 c2 group|g1 g2 g3 _ IH1 _ IH2];
    intros values.
  - intros [= <-]. by exists [].
  - unfold column. simpl. unfold getitem at 1 3.
    destruct (Card.features card !! feat) as [v|]; [simpl|done].
    fold (column feat group). fold (column feat group').
    destruct (column feat group) as [values0|] eqn:Hcol; [simpl|done].
    intros [= <-]. destruct (IH values0 eq_refl) as (values' & -> & ?).
    simpl. exists (v :: values'). split; [done|]. by constructor.
  - unfold column. simpl. unfold getitem at 1 2 4 5.
    destruct (Card.features c1 !! feat) as [v1|];
      destruct (Card.features c2 !! feat) as [v2|]; simpl; try done.
    destruct (comprehension _ group) as [values0|]; [simpl|done].
    intros [= <-]. exists (v1 :: v2 :: values0). split; [done|].
    apply perm_swap.
  - intros Hcol. destruct (IH1 _ Hcol) as (values2 & Hcol2 & ?).
    destruct (IH2 _ Hcol2) as (values3 & ? & ?).
    exists values3. split; [done|]. by etrans.
Qed.

(** X26. Whether cards are a set does not depend on their order: on a
    pairwise compatible group the group matcher returns the same answer
    for every rearrangement of the cards. *)
Theorem is_set_permutation (group group' : list Card.t) :
  pairwise_compatible group → group ≡ₚ group' →
  is_set group = is_set group'.
Proof.
  intros Hcompat Hperm.
  assert (pairwise_compatible group') as Hcompat'.
  { intros c1 c2 Hc1 Hc2. apply Hcompat; by rewrite Hperm. }
  destruct group as [|card0 group].
  { apply Permutation_nil_l in Hperm. by subst. }
  destruct group' as [|card0' group'].
  { by apply Permutation_nil_r in Hperm. }
  assert (dom (Card.features card0') = dom (Card.features card0)) as Hdoms.
  { symmetry. apply (compatible_true card0 (Card.a_card card0')).
    apply Hcompat; [by left|]. rewrite Hperm. by left. }
  destruct (is_set_cons card0 group Hcompat)
    as [(-> & feat & values & Hfeat & Hcol & Hnone)
       |(set_types & -> & Hdom & Hall)];
    destruct (is_set_cons card0' group' Hcompat')
      as [(-> & feat' & values' & Hfeat' & Hcol' & Hnone')
         |(set_types' & -> & Hdom' & Hall')]; try done.
  - rewrite <- Hdoms in Hfeat.
    destruct (Hall' feat Hfeat) as (values' & t & Hcol' & Ht & _).
    destruct (column_perm _ _ _ _ Hperm Hcol) as (values'' & Hcol'' & Hvalues).
    rewrite Hcol' in Hcol''. injection Hcol'' as <-.
    rewrite (is_feature_a_set_perm _ _ Hvalues) in Hnone. congruence.
  - rewrite Hdoms in Hfeat'.
    destruct (Hall feat' Hfeat') as (values & t & Hcol & Ht & _).
    destruct (column_perm _ _ _ _ Hperm Hcol) as (values'' & Hcol'' & Hvalues).
    rewrite Hcol' in Hcol''. injection Hcol'' as <-.
    rewrite (is_feature_a_set_perm _ _ Hvalues) in Ht. congruence.
  - do 2 f_equal. apply map_eq. intros feat.
    destruct (decide (feat ∈ dom (Card.features card0))) as [Hfeat|Hfeat].
    + destruct (Hall feat Hfeat) as (values & t & Hcol & Ht & ->).
      rewrite <- Hdoms in Hfeat.
      destruct (Hall' feat Hfeat) as (values' & t' & Hcol' & Ht' & ->).
      destruct (column_perm _ _ _ _ Hperm Hcol) as (values'' & Hcol'' & Hvalues).
      rewrite Hcol' in Hcol''. injection Hcol'' as <-.
      rewrite (is_feature_a_set_perm _ _ Hvalues) in Ht. congruence.
    + assert (set_types !! feat = None) as ->
        by (apply not_elem_of_dom; by rewrite Hdom).
      symmetry. apply not_elem_of_dom. by rewrite Hdom', Hdoms.
Qed.

Lemma is_set_permutation_witness :
  is_set [purple1; green2; red3] = is_set [red3; purple1; green2].
Proof.
  apply is_set_permutation.
  - apply pairwise_compatible_Forall. repeat constructor.
  - symmetry. apply (Permutation_cons_append [purple1; green2] red3).
Defined.

Lemma NoDup_positions_string_matches (cards : list Card.t)
    (combos : list (list nat)) :
  NoDup combos → Forall (λ combo, combo ≠ []) combos →
  NoDup (CardSet.positions_string <$> matches cards combos).
Proof.
  intros Hnodup Hne.
  induction Hnodup as [|combo combos Hnin _ IH]; [constructor|].
  apply Forall_cons_1 in Hne as [Hcombo Hne].
  unfold matches. cbn [omap list_omap]. fold (matches cards combos).
  destruct (is_match (cards_at cards combo)); [|by apply IH].
  cbn [fmap list_fmap]. constructor; [|by apply IH].
  intros (record & Heq & (combo' & Hin & _ & ->)%elem_of_matches)%list_elem_of_fmap.
  rewrite Forall_forall in Hne.
  assert (combo = combo') as ->; [|done].
  apply (positions_string_inj
           (CardSet.__init__ (cards_at cards combo) (Some combo))
           (CardSet.__init__ (cards_at cards combo') (Some combo')));
    [reflexivity|done|reflexivity|by apply Hne|done].
Qed.

(** X27. The records of one [solve] call for a size of at least one all
    have different texts of positions: [positions_string] tells any two
    matches of a result apart. *)
Theorem solve_distinct_positions_strings (self self' : CardDeck.t)
    (names : list string) (setsize : nat) (found : list CardSet.t) :
  reachable self → CardDeck.features self = Some names → 1 ≤ setsize →
  CardDeck.solve self setsize = Return (found, self') →
  NoDup (CardSet.positions_string <$> found).
Proof.
  intros Hreach Hnames Hsize Hsolve.
  destruct (solve_reachable self names setsize Hreach Hnames)
    as (cards & _ & Hsolve').
  rewrite Hsolve' in Hsolve. injection Hsolve as <- _.
  apply NoDup_positions_string_matches.
  - apply generate_card_combos_NoDup_aux, NoDup_seq.
  - apply Forall_forall.
    intros combo [Hlen _]%generate_card_combos_sublist ->. simpl in Hlen. lia.
Qed.

Lemma solve_distinct_positions_strings_witness :
  NoDup (CardSet.positions_string <$>
           matches [purple1; green2; red3]
             (CardDeck.generate_card_combos (CardDeck.range 3) 2)).
Proof.
  destruct (solve_reachable game_deck
              ["Color"; "Number"; "Shape"; "Fill"]%string 2
              reachable_game_deck eq_refl) as (cards & Hcards & Hsolve).
  injection Hcards as <-.
  exact (solve_distinct_positions_strings game_deck _
           ["Color"; "Number"; "Shape"; "Fill"]%string 2 _
           reachable_game_deck eq_refl ltac:(lia) Hsolve).
Defined.

Lemma cards_at_app (cards : list Card.t) (card : Card.t) (combo : list nat) :
  Forall (λ position, position < length cards) combo →
  cards_at (cards ++ [card]) combo = cards_at cards combo.
Proof.
  induction 1 as [|position combo Hlt _ IH]; [done|].
  unfold cards_at in *. cbn [omap list_omap].
  rewrite lookup_app_l by done. by rewrite IH.
Qed.

(** X28. Adding a card never loses a match: every record that [solve]
    returns for a size before a successful [add_card] is among those it
    returns for that size afterwards. *)
Theorem add_card_keeps_matches (self self' solved solved' : CardDeck.t)
    (names : list string) (card : Card.t) (setsize : nat)
    (found found' : list CardSet.t) (record : CardSet.t) :
  reachable self → CardDeck.features self = Some names →
  CardDeck.add_card self card = Return (true, self') →
  CardDeck.solve self setsize = Return (found, solved) →
  CardDeck.solve self' setsize = Return (found', solved') →
  record ∈ found → record ∈ found'.
Proof.
  intros Hreach Hnames Hadd Hsolve Hsolve' Hrecord.
  assert (reachable self') as Hreach' by (by eapply reachable_add_card).
  destruct (solve_reachable self names setsize Hreach Hnames)
    as (cards & Hcards & Hfound).
  rewrite Hfound in Hsolve. injection Hsolve as <- _.
  pose proof Hreach as [[? _]|[_ _ _ Hschema]]%reachable_loading; [congruence|].
  destruct (Hschema names Hnames) as (Hne & _ & _).
  destruct (add_card_with_schema self card names cards Hnames Hne Hcards)
    as (self1 & Hadd1 & Hnames1 & _ & _ & _ & Htrue & _).
  rewrite Hadd1 in Hadd. injection Hadd as Hcompat <-.
  specialize (Htrue Hcompat).
  destruct (solve_reachable self1 names setsize Hreach' Hnames1)
    as (cards' & Hcards' & Hfound').
  rewrite Htrue in Hcards'. injection Hcards' as <-.
  rewrite Hfound' in Hsolve'. injection Hsolve' as <- _.
  apply elem_of_matches in Hrecord as (combo & Hcombo & Hmatch & ->).
  apply generate_card_combos_sublist in Hcombo as [Hlen Hsub].
  assert (Forall (λ position, position < length cards) combo) as Hbelow.
  { apply Forall_forall. intros position Hposition.
    pose proof (sublist_elem_of _ _ _ Hsub Hposition) as Hin.
    apply elem_of_seq in Hin. lia. }
  apply elem_of_matches. exists combo.
  rewrite cards_at_app by done. split_and!; [|done..].
  rewrite <- Hlen. apply sublist_generate_card_combos.
  rewrite length_app. simpl. unfold CardDeck.range in *.
  rewrite Nat.add_1_r, seq_S. by apply sublist_inserts_r.
Qed.

Lemma add_card_keeps_matches_witness :
  ∃ self' found',
    CardDeck.add_card game_deck blue4 = Return (true, self') ∧
    CardDeck.solve self' 3 =
      Return (found', CardDeck.set_sets self' found') ∧
    CardSet.__init__ [purple1; green2; red3] (Some [0; 1; 2]) ∈ found'.
Proof.
  destruct (add_card_with_schema game_deck blue4
              ["Color"; "Number"; "Shape"; "Fill"]%string
              [purple1; green2; red3] eq_refl ltac:(done) eq_refl)
    as (self' & Hadd & Hnames' & _).
  rewrite blue4_compatible in Hadd.
  assert (reachable self') as Hreach'
    by (eapply reachable_add_card; [exact reachable_game_deck|exact Hadd]).
  destruct (solve_reachable self' _ 3 Hreach' Hnames')
    as (cards' & _ & Hsolve').
  assert (CardDeck.solve game_deck 3 =
          Return ([CardSet.__init__ [purple1; green2; red3] (Some [0; 1; 2])],
                  solved_deck)) as Hsolve by (vm_compute; reflexivity).
  eexists self', _. split; [exact Hadd|]. split; [exact Hsolve'|].
  eapply (add_card_keeps_matches game_deck self' solved_deck);
    [exact reachable_game_deck|reflexivity|exact Hadd|exact Hsolve
    |exact Hsolve'|by left].
Defined.
